(** * number_parser: an incremental number accumulator

    A shallow embedding of [src/number_parser.c] and [number_parser.h]
    (the header is the file [src/unnamed/part_000]) together with the
    properties the specification states about them.

    Conventions of the embedding.
    - Fixed-width C integers are values of [Z]; every place where the C
      code stores into a narrower type or computes in [uint64_t] has its
      wrap-around written out ([u64], [s64], [s16]).
    - [double] is IEEE-754 binary64, modelled by [spec_float] of the
      standard library at precision 53 and maximal exponent 1024, each
      operation rounded to nearest-even on its own.
    - The anonymous union [{ival, uval, fval}] is ONE 64-bit storage cell
      ([word]); the three members are three readings of that cell. *)

From Stdlib Require Import ZArith List Bool Lia.
From Stdlib Require Import Floats.SpecFloat.
Import ListNotations.
Local Open Scope Z_scope.

(** ** Machine integers *)

(** Conversion to [uint64_t]. *)
Definition u64 (z : Z) : Z := z mod 2 ^ 64.

(** Reading a 64-bit cell as [int64_t] (two's complement). *)
Definition s64 (z : Z) : Z :=
  let w := z mod 2 ^ 64 in if w <? 2 ^ 63 then w else w - 2 ^ 64.

(** Conversion to [int16_t] (reduction modulo 2^16, as gcc and clang
    define the conversion of an out-of-range [int]). *)
Definition s16 (z : Z) : Z :=
  let w := z mod 2 ^ 16 in if w <? 2 ^ 15 then w else w - 2 ^ 16.

(** ** IEEE-754 binary64 *)

Definition double : Type := spec_float.

Module B64.

Definition prec : Z := 53.
Definition emax : Z := 1024.

Definition add : double -> double -> double := SFadd prec emax.
Definition mul : double -> double -> double := SFmul prec emax.
Definition div : double -> double -> double := SFdiv prec emax.
Definition neg : double -> double := SFopp.

(** Conversion of an integer to [double]. *)
Definition of_Z (z : Z) : double := binary_normalize prec emax z 0 false.

Definition one : double := of_Z 1.

(** The 64-bit pattern of a [double].  For a canonical finite number
    [m * 2^e] the exponent field and the fraction add up to
    [(e + 1074) * 2^52 + m], for normal and subnormal numbers alike.
    The pattern of a NaN is the quiet NaN with an empty payload. *)
Definition sign_bit (s : bool) : Z := if s then 2 ^ 63 else 0.

Definition to_bits (x : double) : Z :=
  match x with
  | S754_zero s => sign_bit s
  | S754_infinity s => sign_bit s + 2047 * 2 ^ 52
  | S754_nan => 2047 * 2 ^ 52 + 2 ^ 51
  | S754_finite s m e => sign_bit s + (e + 1074) * 2 ^ 52 + Zpos m
  end.

Definition of_bits (w : Z) : double :=
  let s := 2 ^ 63 <=? w mod 2 ^ 64 in
  let ex := (w / 2 ^ 52) mod 2 ^ 11 in
  let fr := w mod 2 ^ 52 in
  if ex =? 0 then
    match fr with
    | Zpos m => S754_finite s m (-1074)
    | _ => S754_zero s
    end
  else if ex =? 2047 then
    if fr =? 0 then S754_infinity s else S754_nan
  else
    match fr + 2 ^ 52 with
    | Zpos m => S754_finite s m (ex - 1075)
    | _ => S754_nan
    end.

End B64.

(** ** The parser state *)

(** [#define MAX_INT ((uint64_t) INT64_MAX + 1)] *)
Definition MAX_INT : Z := 2 ^ 63.

(** [#define MAX_POS_INT (MAX_INT - 1)] *)
Definition MAX_POS_INT : Z := MAX_INT - 1.

(** Modelled from the spec: [DBL_MIN_10_EXP] comes from the system header
    [<float.h>], which is not part of the repository.  The specification
    gives the exponent ceiling as 308, which is also the value of the
    fallback definition in [number_parser.h]
    ([#define DBL_MIN_10_EXP -308], used when [<float.h>] defines none;
    a [<float.h>] that defines -307 moves the ceiling to 307).  Apart
    from the value of [MAX_EXP] itself, the properties below only need
    the ceiling to be positive. *)
Definition DBL_MIN_10_EXP : Z := -308.

(** [#define MAX_EXP (-DBL_MIN_10_EXP)] *)
Definition MAX_EXP : Z := - DBL_MIN_10_EXP.

(** [#define MAX_LEN INT16_MAX] *)
Definition MAX_LEN : Z := 32767.

(** [struct number_parser].  The one-bit fields are booleans; [word] is
    the storage shared by the union members [ival], [uval] and [fval]. *)
Record number_parser : Type := mk_parser {
  int_len : Z;      (* int16_t: number of digits *)
  rad_off : Z;      (* int16_t: offset of the radix point, -1 when unset *)
  exp_val : Z;      (* int16_t: exponent value *)
  base : Z;         (* uint8_t *)
  sign : bool;
  exp_sign : bool;
  is_float : bool;
  has_exp : bool;
  was_int : bool;
  word : Z          (* the 64 bits of the union *)
}.

Definition uval (p : number_parser) : Z := word p.
Definition ival (p : number_parser) : Z := s64 (word p).
Definition fval (p : number_parser) : double := B64.of_bits (word p).

Definition set_int_len (v : Z) (p : number_parser) : number_parser :=
  mk_parser v (rad_off p) (exp_val p) (base p) (sign p) (exp_sign p)
            (is_float p) (has_exp p) (was_int p) (word p).

Definition set_rad_off (v : Z) (p : number_parser) : number_parser :=
  mk_parser (int_len p) v (exp_val p) (base p) (sign p) (exp_sign p)
            (is_float p) (has_exp p) (was_int p) (word p).

Definition set_exp_val (v : Z) (p : number_parser) : number_parser :=
  mk_parser (int_len p) (rad_off p) v (base p) (sign p) (exp_sign p)
            (is_float p) (has_exp p) (was_int p) (word p).

Definition set_sign (v : bool) (p : number_parser) : number_parser :=
  mk_parser (int_len p) (rad_off p) (exp_val p) (base p) v (exp_sign p)
            (is_float p) (has_exp p) (was_int p) (word p).

Definition set_exp_sign (v : bool) (p : number_parser) : number_parser :=
  mk_parser (int_len p) (rad_off p) (exp_val p) (base p) (sign p) v
            (is_float p) (has_exp p) (was_int p) (word p).

Definition set_is_float (v : bool) (p : number_parser) : number_parser :=
  mk_parser (int_len p) (rad_off p) (exp_val p) (base p) (sign p)
            (exp_sign p) v (has_exp p) (was_int p) (word p).

Definition set_has_exp (v : bool) (p : number_parser) : number_parser :=
  mk_parser (int_len p) (rad_off p) (exp_val p) (base p) (sign p)
            (exp_sign p) (is_float p) v (was_int p) (word p).

Definition set_word (v : Z) (p : number_parser) : number_parser :=
  mk_parser (int_len p) (rad_off p) (exp_val p) (base p) (sign p)
            (exp_sign p) (is_float p) (has_exp p) (was_int p) v.

(** Assignments to the union members. *)
Definition set_uval (v : Z) : number_parser -> number_parser :=
  set_word (u64 v).
Definition set_ival (v : Z) : number_parser -> number_parser :=
  set_word (u64 v).
Definition set_fval (x : double) : number_parser -> number_parser :=
  set_word (B64.to_bits x).

(** ** The operations *)

(** [number_parser_init]: a compound literal, every member not named is
    zero. *)
Definition number_parser_init (b : Z) : number_parser :=
  mk_parser 0 (-1) 0 b false false false false false 0.

(** [convert_to_float] *)
Definition convert_to_float (p : number_parser) : number_parser :=
  if negb (is_float p) then
    let p := set_is_float true p in
    set_fval (B64.of_Z (uval p)) p
  else p.

(** [number_parser_add_digit] *)
Definition number_parser_add_digit (p : number_parser) (digit : Z)
  : number_parser :=
  if int_len p >=? MAX_LEN then p
  else
    let p :=
      if negb (is_float p) then
        if uval p >? MAX_INT / base p then convert_to_float p else p
      else p in
    let p :=
      if negb (is_float p) then
        let p := set_uval (uval p * base p) p in
        if uval p >? u64 (MAX_INT - digit) then
          let p := convert_to_float p in
          set_fval (B64.add (fval p) (B64.of_Z digit)) p
        else set_uval (uval p + digit) p
      else
        set_fval (B64.add (B64.mul (fval p) (B64.of_Z (base p)))
                          (B64.of_Z digit)) p in
    set_int_len (s16 (int_len p + 1)) p.

(** [number_parser_add_exp_digit] *)
Definition number_parser_add_exp_digit (p : number_parser) (digit : Z)
  : number_parser :=
  if exp_val p <? MAX_EXP then
    let p := set_exp_val (s16 (exp_val p * base p + digit)) p in
    set_has_exp true p
  else p.

(** [number_parser_set_rad_point] *)
Definition number_parser_set_rad_point (p : number_parser) : number_parser :=
  set_rad_off (int_len p) p.

(** [number_parser_set_neg] *)
Definition number_parser_set_neg (p : number_parser) (negative : Z)
  : number_parser :=
  set_sign (negb (negative =? 0)) p.

(** [number_parser_set_exp_neg] *)
Definition number_parser_set_exp_neg (p : number_parser) (negative : Z)
  : number_parser :=
  set_exp_sign (negb (negative =? 0)) p.

(** The [while (n)] loop of [number_parser_end] for a positive [n]:
    [n & 1] is the lowest binary digit of [n] and [n >>= 1] drops it, so
    the loop is a recursion on the binary digits of [n].  The result is
    the final [e]. *)
Fixpoint pow_loop (n : positive) (e d : double) : double :=
  match n with
  | xH => B64.mul e d
  | xO n' => pow_loop n' e (B64.mul d d)
  | xI n' => pow_loop n' (B64.mul e d) (B64.mul d d)
  end.

(** [number_parser_end]: the returned [int] and the state left behind.
    The local [n] is an [int] made of [int16_t] values, so it stays far
    inside the range of [int]; it is not negative when the loop starts.
    The negation of [ival] wraps around in two's complement. *)
Definition number_parser_end (p : number_parser) : Z * number_parser :=
  let p :=
    if (negb (sign p) && (uval p >? MAX_POS_INT))
       || has_exp p || (rad_off p >=? 0)
    then convert_to_float p else p in
  let p :=
    if is_float p then
      let n := exp_val p in
      let d := B64.of_Z (base p) in
      let e := B64.one in
      let n := if exp_sign p then - n else n in
      let n := if rad_off p >=? 0 then n - (int_len p - rad_off p) else n in
      let '(p, n) :=
        if n <? 0 then (set_exp_sign true p, - n) else (p, n) in
      let e := match n with Zpos q => pow_loop q e d | _ => e end in
      let p := if sign p then set_fval (B64.neg (fval p)) p else p in
      if exp_sign p then set_fval (B64.div (fval p) e) p
      else set_fval (B64.mul (fval p) e) p
    else if sign p then set_ival (- ival p) p
    else p in
  (Z.b2z (is_float p), p).

(** ** Sequences of operations *)

Inductive op : Type :=
| AddDigit (digit : Z)
| AddExpDigit (digit : Z)
| SetRadPoint
| SetNeg (negative : Z)
| SetExpNeg (negative : Z).

Definition step (p : number_parser) (o : op) : number_parser :=
  match o with
  | AddDigit d => number_parser_add_digit p d
  | AddExpDigit d => number_parser_add_exp_digit p d
  | SetRadPoint => number_parser_set_rad_point p
  | SetNeg n => number_parser_set_neg p n
  | SetExpNeg n => number_parser_set_exp_neg p n
  end.

Definition run (ops : list op) (p : number_parser) : number_parser :=
  fold_left step ops p.

(** The value of a digit sequence, most significant digit first. *)
Definition digits_value (b : Z) (ds : list Z) : Z :=
  fold_left (fun acc d => acc * b + d) ds 0.

Definition add_digits (ds : list Z) (p : number_parser) : number_parser :=
  fold_left number_parser_add_digit ds p.

Definition valid_base (b : Z) : Prop := 2 <= b <= 255.

Definition valid_digit (b d : Z) : Prop := 0 <= d < b.

(** ** Vocabulary of the properties *)

(** The test at the head of [number_parser_end]: whether the parser is
    converted to floating-point there. *)
Definition end_promotes (p : number_parser) : bool :=
  (negb (sign p) && (uval p >? MAX_POS_INT)) || has_exp p || (rad_off p >=? 0).

(** A parser that has received 32767 digits, all of them 0. *)
Definition full_parser : number_parser :=
  add_digits (repeat 0 (Z.to_nat MAX_LEN)) (number_parser_init 10).

(** The digits of 2^63 in base 2, then a negative sign. *)
Definition min_int_parser : number_parser :=
  run (AddDigit 1 :: repeat (AddDigit 0) 63 ++ [SetNeg 1])
      (number_parser_init 2).

(** The same digits with the sign left non-negative. *)
Definition two_pow_63_parser : number_parser :=
  run (AddDigit 1 :: repeat (AddDigit 0) 63) (number_parser_init 2).

(** The digit count stays between 0 and the cap, and the exponent value
    is still 0 as long as no exponent digit was taken. *)
Definition counters_ok (p : number_parser) : Prop :=
  0 <= int_len p <= MAX_LEN /\ (has_exp p = false -> exp_val p = 0).

(** The two conditions under which [number_parser_end] converts to
    floating-point whatever the mantissa is. *)
Definition float_forced (p : number_parser) : Prop :=
  has_exp p = true \/ 0 <= rad_off p.

Definition forces_float (o : op) : Prop :=
  o = SetRadPoint \/ exists d, o = AddExpDigit d.

(** An operation of the interface, called as the header asks: a mantissa
    digit lies between 0 and [base - 1]. *)
Definition valid_op (b : Z) (o : op) : Prop :=
  match o with
  | AddDigit d => valid_digit b d
  | _ => True
  end.

Definition magnitude_ok (b : Z) (p : number_parser) : Prop :=
  base p = b /\ (is_float p = false -> 0 <= uval p <= MAX_INT).

(** The statement of C1 without a bound on the number of digits. *)
Definition integer_exact_any_length : Prop :=
  forall (b : Z) (ds : list Z) (negative : Z),
    valid_base b ->
    Forall (valid_digit b) ds ->
    let v := if negative =? 0 then digits_value b ds
             else - digits_value b ds in
    - 2 ^ 63 <= v <= 2 ^ 63 - 1 ->
    let r := number_parser_end
               (number_parser_set_neg
                  (add_digits ds (number_parser_init b)) negative) in
    fst r = 0 /\ ival (snd r) = v.

(** 32767 zeros followed by the digit 1: the value is 1, but the last
    digit arrives when the cap is reached and is dropped. *)
Definition long_digits : list Z := repeat 0 (Z.to_nat MAX_LEN) ++ [1].

(** C6 as stated: after a [number_parser_set_rad_point], no later
    sequence of operations changes the offset. *)
Definition radix_offset_immutable : Prop :=
  forall (b : Z) (before after : list op),
    let p := number_parser_set_rad_point
               (run before (number_parser_init b)) in
    rad_off (run after p) = rad_off p.

(** C7 as stated: the second call reproduces the kind and the result
    value of the first, read through the member that the kind selects. *)
Definition end_twice_reproduces : Prop :=
  forall (b : Z) (ops : list op),
    valid_base b -> Forall (valid_op b) ops ->
    let r1 := number_parser_end (run ops (number_parser_init b)) in
    let r2 := number_parser_end (snd r1) in
    fst r2 = fst r1 /\
    (fst r1 = 0 -> ival (snd r2) = ival (snd r1)) /\
    (fst r1 = 1 -> fval (snd r2) = fval (snd r1)).

(** In base 255 the valid exponent digits 200, 200 stand for the
    exponent 200 * 255 + 200 = 51200. *)
Definition wide_exponent_parser : number_parser :=
  run [AddDigit 1; AddExpDigit 200; AddExpDigit 200] (number_parser_init 255).

(** ** Vocabulary of the further properties *)

(** The four groups of operations: the mantissa stream (digits and radix
    point, whose order matters), the exponent digits, and the two sign
    setters. *)
Inductive op_class : Type := Mantissa | Exponent | Sign | ExpSign.

Definition class_of (o : op) : op_class :=
  match o with
  | AddDigit _ => Mantissa
  | SetRadPoint => Mantissa
  | AddExpDigit _ => Exponent
  | SetNeg _ => Sign
  | SetExpNeg _ => ExpSign
  end.

Definition class_eqb (c1 c2 : op_class) : bool :=
  match c1, c2 with
  | Mantissa, Mantissa => true
  | Exponent, Exponent => true
  | Sign, Sign => true
  | ExpSign, ExpSign => true
  | _, _ => false
  end.

(** The operations of one group, in the order of the calls. *)
Definition select (c : op_class) (ops : list op) : list op :=
  filter (fun o => class_eqb (class_of o) c) ops.

Definition is_add_digit (o : op) : bool :=
  match o with AddDigit _ => true | _ => false end.

Definition is_set_rad_point (o : op) : bool :=
  match o with SetRadPoint => true | _ => false end.

(** The number of [number_parser_add_digit] calls in a sequence. *)
Definition count_digits (ops : list op) : Z :=
  Z.of_nat (length (filter is_add_digit ops)).

Definition add_exp_digits (es : list Z) (p : number_parser) : number_parser :=
  fold_left number_parser_add_exp_digit es p.

(** The local [n] of [number_parser_end] when the loop starts, before its
    sign is split off: the exponent with its sign, less the number of
    digits behind the radix point. *)
Definition effective_exponent (p : number_parser) : Z :=
  (if exp_sign p then - exp_val p else exp_val p)
  - (if rad_off p >=? 0 then int_len p - rad_off p else 0).

(** Whether [number_parser_end] divides by the power of the base (the
    value of [exp_sign] at its last test). *)
Definition end_divides (p : number_parser) : bool :=
  exp_sign p || (effective_exponent p <? 0).

(** The doubles that have a bit pattern of their own: zeros, infinities,
    the NaN, subnormal numbers and normal numbers (the canonical
    mantissa and exponent of binary64, written out). *)
Definition encodable (x : double) : Prop :=
  match x with
  | S754_finite _ m e =>
      (e = -1074 /\ Zpos m < 2 ^ 52)
      \/ (2 ^ 52 <= Zpos m < 2 ^ 53 /\ -1074 <= e <= 971)
  | _ => True
  end.

(** The bits [number_parser_end] leaves in the union for a floating-point
    parser whose union holds [w]: the power of the base for the exponent
    [n], the sign, then the division or the multiplication. *)
Definition float_result (w : Z) (sgn : bool) (b n : Z) (dv : bool) : Z :=
  let e := match Z.abs n with
           | Zpos q => pow_loop q B64.one (B64.of_Z b)
           | _ => B64.one
           end in
  let w := if sgn then B64.to_bits (B64.neg (B64.of_bits w)) else w in
  B64.to_bits ((if dv then B64.div else B64.mul) (B64.of_bits w) e).

(** The double [x] is the integer [a], held exactly: a normal number with
    the mantissa [a * 2^s] and the exponent [-s]. *)
Definition holds_integer (x : double) (a : Z) : Prop :=
  exists (m : positive) (s : Z),
    x = S754_finite false m (- s) /\ 0 <= s <= 52 /\
    Zpos m = a * 2 ^ s /\ 2 ^ 52 <= Zpos m < 2 ^ 53.

(** A double with the sign of the number applied. *)
Definition with_sign (negative : bool) (x : double) : double :=
  if negative then B64.neg x else x.

(** ** The examples of the documentation, run on the model *)

(** The number "-12.3e4" of the header, fed in the order the header uses:
    the result is floating-point and equals -123000. *)
Example header_example :
  let p := run [AddExpDigit 4; AddDigit 1; AddDigit 2; SetRadPoint;
                AddDigit 3; SetNeg 1] (number_parser_init 10) in
  fst (number_parser_end p) = 1 /\
  fval (snd (number_parser_end p)) = B64.of_Z (- 123000).
Proof. vm_compute. split; reflexivity. Qed.

(** Base 16, the single digit f: the integer 15. *)
Example hex_digit_example :
  let p := run [AddDigit 15] (number_parser_init 16) in
  fst (number_parser_end p) = 0 /\ ival (snd (number_parser_end p)) = 15.
Proof. vm_compute. split; reflexivity. Qed.

(** Nineteen digits 9 in base 10 exceed 2^63: the parser is an integer
    after eighteen of them and floating-point after the nineteenth, and
    the floating-point accumulation ends on the [double] 10^19. *)
Example nineteen_nines_example :
  let p18 := add_digits (repeat 9 18) (number_parser_init 10) in
  let p19 := add_digits (repeat 9 19) (number_parser_init 10) in
  is_float p18 = false /\ is_float p19 = true /\
  fst (number_parser_end p19) = 1 /\
  fval (snd (number_parser_end p19)) = B64.of_Z (10 ^ 19).
Proof. vm_compute. repeat split; reflexivity. Qed.

(** Reading a stored [double] back gives the same [double]. *)
Example bits_round_trip_example :
  B64.to_bits (B64.of_Z (- 123000)) = 13906560945703878656 /\
  B64.of_bits 13906560945703878656 = B64.of_Z (- 123000) /\
  B64.of_bits (B64.to_bits (B64.div (B64.of_Z 1) (B64.of_Z 3)))
  = B64.div (B64.of_Z 1) (B64.of_Z 3).
Proof. vm_compute. repeat split; reflexivity. Qed.

(** ** Basic facts on the machine integers *)

Lemma u64_small (z : Z) : 0 <= z < 2 ^ 64 -> u64 z = z.
Proof. intros H. unfold u64. apply Z.mod_small. exact H. Qed.

Lemma s16_small (z : Z) : - 2 ^ 15 <= z < 2 ^ 15 -> s16 z = z.
Proof.
  intros H. unfold s16.
  destruct (Z.leb_spec 0 z).
  - rewrite Z.mod_small by lia.
    destruct (Z.ltb_spec z (2 ^ 15)); lia.
  - replace (z mod 2 ^ 16) with (z + 2 ^ 16).
    + destruct (Z.ltb_spec (z + 2 ^ 16) (2 ^ 15)); lia.
    + apply Z.mod_unique with (q := -1); lia.
Qed.

Lemma s64_nonneg (z : Z) : 0 <= z < 2 ^ 63 -> s64 z = z.
Proof.
  intros H. unfold s64. rewrite Z.mod_small by lia.
  destruct (Z.ltb_spec z (2 ^ 63)); lia.
Qed.

Lemma s64_high (z : Z) : 2 ^ 63 <= z < 2 ^ 64 -> s64 z = z - 2 ^ 64.
Proof.
  intros H. unfold s64. rewrite Z.mod_small by lia.
  destruct (Z.ltb_spec z (2 ^ 63)); lia.
Qed.

Lemma u64_opp (z : Z) : 0 < z <= 2 ^ 64 -> u64 (- z) = 2 ^ 64 - z.
Proof.
  intros H. unfold u64. symmetry.
  apply Z.mod_unique with (q := -1); lia.
Qed.

(** Negating the signed reading of a magnitude of at most 2^63 and
    storing it back gives the negated magnitude; at 2^63 the negation
    wraps to -2^63. *)
Lemma s64_negate (v : Z) :
  0 <= v <= 2 ^ 63 -> s64 (u64 (- s64 v)) = - v.
Proof.
  intros H.
  destruct (Z.eq_dec v 0) as [-> | Hz]; [reflexivity |].
  destruct (Z.eq_dec v (2 ^ 63)) as [-> | Hm]; [reflexivity |].
  rewrite (s64_nonneg v) by lia.
  rewrite u64_opp by lia.
  rewrite s64_high by lia. lia.
Qed.

(** ** Frame facts: which fields an operation leaves alone *)

(** Arithmetic stays folded under [simpl]. *)
#[local] Arguments B64.add : simpl never.
#[local] Arguments B64.mul : simpl never.
#[local] Arguments B64.div : simpl never.
#[local] Arguments B64.neg : simpl never.
#[local] Arguments B64.of_Z : simpl never.
#[local] Arguments B64.to_bits : simpl never.
#[local] Arguments B64.of_bits : simpl never.
#[local] Arguments pow_loop : simpl never.
#[local] Arguments u64 : simpl never.
#[local] Arguments s64 : simpl never.
#[local] Arguments s16 : simpl never.
#[local] Arguments Z.mul : simpl never.
#[local] Arguments Z.add : simpl never.
#[local] Arguments Z.sub : simpl never.
#[local] Arguments Z.opp : simpl never.
#[local] Arguments Z.div : simpl never.
#[local] Arguments Z.pow : simpl never.

Ltac unfold_setters :=
  unfold set_fval, set_uval, set_ival, set_int_len, set_rad_off,
    set_exp_val, set_sign, set_exp_sign, set_is_float, set_has_exp,
    set_word, uval, ival, fval in *.

(** Split on every test the term under consideration still branches on. *)
Ltac split_tests :=
  repeat match goal with
         | |- context [if ?c then _ else _] => destruct c eqn:?; simpl
         | |- context [match ?c with Z0 => _ | Zpos _ => _ | Zneg _ => _ end] =>
             destruct c eqn:?; simpl
         end.

(** Unfold the operation under consideration.  The setters stay folded
    until a field is read from them, which keeps the terms small while a
    test is still undecided. *)
Ltac open_op :=
  unfold number_parser_add_digit, number_parser_add_exp_digit,
    number_parser_set_rad_point, number_parser_set_neg,
    number_parser_set_exp_neg, number_parser_end, convert_to_float;
  simpl.

Lemma add_digit_frame (p : number_parser) (d : Z) :
  let q := number_parser_add_digit p d in
  rad_off q = rad_off p /\ exp_val q = exp_val p /\ base q = base p /\
  sign q = sign p /\ exp_sign q = exp_sign p /\ has_exp q = has_exp p /\
  was_int q = was_int p.
Proof.
  destruct p. open_op. split_tests; repeat split; reflexivity.
Qed.

Lemma add_digit_len (p : number_parser) (d : Z) :
  0 <= int_len p <= MAX_LEN ->
  0 <= int_len (number_parser_add_digit p d) <= MAX_LEN.
Proof.
  destruct p. open_op. unfold MAX_LEN. intros H.
  destruct (Z.geb_spec int_len0 32767); simpl; [lia |].
  split_tests; rewrite s16_small; lia.
Qed.

Lemma add_digit_float_stays (p : number_parser) (d : Z) :
  is_float p = true -> is_float (number_parser_add_digit p d) = true.
Proof.
  destruct p. open_op. intros ->. simpl. split_tests; reflexivity.
Qed.

Lemma end_returns_kind (p : number_parser) :
  fst (number_parser_end p) = Z.b2z (is_float (snd (number_parser_end p))).
Proof. reflexivity. Qed.

Lemma end_is_float (p : number_parser) :
  is_float (snd (number_parser_end p)) = is_float p || end_promotes p.
Proof.
  unfold end_promotes. destruct p. open_op. unfold uval. simpl.
  destruct is_float0; simpl; split_tests; reflexivity.
Qed.

Lemma end_frame (p : number_parser) :
  let q := snd (number_parser_end p) in
  int_len q = int_len p /\ rad_off q = rad_off p /\ exp_val q = exp_val p /\
  base q = base p /\ sign q = sign p /\ has_exp q = has_exp p /\
  was_int q = was_int p.
Proof.
  destruct p. open_op.
  destruct is_float0; simpl; split_tests; repeat split; reflexivity.
Qed.

(** ** Finalizing a fresh parser *)

(** C10.  Calling [number_parser_end] directly after
    [number_parser_init], for every base from 2 to 255, returns 0 (the
    number is an integer) and the signed integer result is 0; the parser
    state is left as [number_parser_init] made it. *)
Theorem end_of_fresh_parser (b : Z) :
  valid_base b ->
  fst (number_parser_end (number_parser_init b)) = 0 /\
  ival (snd (number_parser_end (number_parser_init b))) = 0 /\
  snd (number_parser_end (number_parser_init b)) = number_parser_init b.
Proof.
  intros _. repeat split.
Qed.

Lemma end_of_fresh_parser_base16 :
  valid_base 16 /\
  fst (number_parser_end (number_parser_init 16)) = 0 /\
  ival (snd (number_parser_end (number_parser_init 16))) = 0 /\
  snd (number_parser_end (number_parser_init 16)) = number_parser_init 16.
Proof.
  split; [unfold valid_base; lia |].
  apply (end_of_fresh_parser 16). unfold valid_base; lia.
Defined.

(** ** The boundary 2^63 *)

(** C3.  When the parser is still an integer, its magnitude [uval] is
    exactly 2^63, the sign is negative, no radix point is set and no
    exponent digit was added, [number_parser_end] returns 0 (integer) and
    the signed result [ival] is exactly -2^63. *)
Theorem negative_two_pow_63_is_integer (p : number_parser) :
  is_float p = false ->
  uval p = 2 ^ 63 ->
  sign p = true ->
  has_exp p = false ->
  rad_off p < 0 ->
  fst (number_parser_end p) = 0 /\
  ival (snd (number_parser_end p)) = - 2 ^ 63.
Proof.
  destruct p. unfold uval. simpl. intros -> -> -> -> Hr.
  open_op.
  destruct (Z.geb_spec rad_off0 0); [lia |].
  simpl. split; reflexivity.
Qed.

Lemma negative_two_pow_63_is_integer_base2 :
  is_float min_int_parser = false /\
  uval min_int_parser = 2 ^ 63 /\
  sign min_int_parser = true /\
  has_exp min_int_parser = false /\
  rad_off min_int_parser < 0 /\
  fst (number_parser_end min_int_parser) = 0 /\
  ival (snd (number_parser_end min_int_parser)) = - 2 ^ 63.
Proof.
  assert (Hf : is_float min_int_parser = false) by (vm_compute; reflexivity).
  assert (Hu : uval min_int_parser = 2 ^ 63) by (vm_compute; reflexivity).
  assert (Hs : sign min_int_parser = true) by (vm_compute; reflexivity).
  assert (Hx : has_exp min_int_parser = false) by (vm_compute; reflexivity).
  assert (Hr : rad_off min_int_parser < 0) by (vm_compute; reflexivity).
  repeat (split; [assumption |]).
  exact (negative_two_pow_63_is_integer min_int_parser Hf Hu Hs Hx Hr).
Defined.

(** C4.  When the magnitude [uval] is exactly 2^63 and the sign is
    non-negative, [number_parser_end] returns 1 (floating-point), whether
    or not a radix point or an exponent is present: 2^63 is greater than
    [MAX_POS_INT]. *)
Theorem positive_two_pow_63_is_float (p : number_parser) :
  uval p = 2 ^ 63 ->
  sign p = false ->
  fst (number_parser_end p) = 1.
Proof.
  intros Hu Hs. rewrite end_returns_kind, end_is_float.
  unfold end_promotes. rewrite Hu, Hs.
  replace (2 ^ 63 >? MAX_POS_INT) with true by reflexivity.
  simpl. rewrite orb_true_r. reflexivity.
Qed.

Lemma positive_two_pow_63_is_float_base2 :
  uval two_pow_63_parser = 2 ^ 63 /\
  sign two_pow_63_parser = false /\
  is_float two_pow_63_parser = false /\
  fst (number_parser_end two_pow_63_parser) = 1.
Proof.
  assert (Hu : uval two_pow_63_parser = 2 ^ 63) by (vm_compute; reflexivity).
  assert (Hs : sign two_pow_63_parser = false) by (vm_compute; reflexivity).
  split; [exact Hu |]. split; [exact Hs |].
  split; [vm_compute; reflexivity |].
  exact (positive_two_pow_63_is_float two_pow_63_parser Hu Hs).
Defined.

(** ** Invariants of the accumulation *)

Lemma init_counters_ok (b : Z) : counters_ok (number_parser_init b).
Proof. unfold counters_ok, MAX_LEN. simpl. split; [lia | reflexivity]. Qed.

Lemma step_counters_ok (p : number_parser) (o : op) :
  counters_ok p -> counters_ok (step p o).
Proof.
  unfold counters_ok. intros [Hl He]. destruct o as [d | d | | n | n]; simpl.
  - split; [apply add_digit_len, Hl |].
    destruct (add_digit_frame p d) as (_ & E & _ & _ & _ & X & _).
    rewrite E, X. exact He.
  - destruct p. open_op. simpl in *.
    destruct (exp_val0 <? MAX_EXP); simpl; [split; [exact Hl | discriminate] |].
    split; assumption.
  - split; assumption.
  - split; assumption.
  - split; assumption.
Qed.

Lemma run_counters_ok (ops : list op) (p : number_parser) :
  counters_ok p -> counters_ok (run ops p).
Proof.
  revert p. induction ops as [| o ops IH]; intros p H; [exact H |].
  apply IH, step_counters_ok, H.
Qed.

Lemma step_forces (p : number_parser) (o : op) :
  counters_ok p -> forces_float o -> float_forced (step p o).
Proof.
  intros [Hl He] [-> | [d ->]]; unfold float_forced; simpl.
  - right. lia.
  - left. unfold number_parser_add_exp_digit.
    destruct (has_exp p) eqn:Hx.
    + destruct (exp_val p <? MAX_EXP); [reflexivity | exact Hx].
    + rewrite (He eq_refl). reflexivity.
Qed.

Lemma step_keeps_forced (p : number_parser) (o : op) :
  counters_ok p -> float_forced p -> float_forced (step p o).
Proof.
  intros [Hl He] H. destruct o as [d | d | | n | n]; unfold float_forced in *;
    simpl.
  - destruct (add_digit_frame p d) as (R & _ & _ & _ & _ & X & _).
    rewrite R, X. exact H.
  - unfold number_parser_add_exp_digit.
    destruct (exp_val p <? MAX_EXP); simpl; [left; reflexivity | exact H].
  - right. lia.
  - exact H.
  - exact H.
Qed.

Lemma run_keeps_forced (ops : list op) (p : number_parser) :
  counters_ok p -> float_forced p -> float_forced (run ops p).
Proof.
  revert p. induction ops as [| o ops IH]; intros p Hc H; [exact H |].
  apply IH; [apply step_counters_ok, Hc | apply step_keeps_forced; assumption].
Qed.

Lemma run_forces (ops : list op) (p : number_parser) :
  counters_ok p -> Exists forces_float ops -> float_forced (run ops p).
Proof.
  intros Hc Hex. revert p Hc.
  induction Hex as [o ops Ho | o ops _ IH]; intros p Hc.
  - apply (run_keeps_forced ops (step p o)).
    + apply step_counters_ok, Hc.
    + apply step_forces; assumption.
  - apply (IH (step p o)), step_counters_ok, Hc.
Qed.

Lemma forced_end_is_float (p : number_parser) :
  float_forced p -> fst (number_parser_end p) = 1.
Proof.
  intros H. rewrite end_returns_kind, end_is_float. unfold end_promotes.
  destruct H as [-> | H].
  - rewrite orb_true_r. simpl. rewrite orb_true_r. reflexivity.
  - destruct (Z.geb_spec (rad_off p) 0); [| lia].
    rewrite !orb_true_r. reflexivity.
Qed.

(** C2.  Whatever the base and whatever sequence of operations is run on
    a parser after [number_parser_init], if the sequence holds at least
    one [number_parser_set_rad_point] or at least one
    [number_parser_add_exp_digit], then [number_parser_end] returns 1
    (floating-point), whatever the mantissa is. *)
Theorem radix_or_exponent_gives_float (b : Z) (ops : list op) :
  In SetRadPoint ops \/ (exists d, In (AddExpDigit d) ops) ->
  fst (number_parser_end (run ops (number_parser_init b))) = 1.
Proof.
  intros H. apply forced_end_is_float, run_forces.
  - apply init_counters_ok.
  - apply Exists_exists. destruct H as [H | [d H]].
    + exists SetRadPoint. split; [exact H | left; reflexivity].
    + exists (AddExpDigit d). split; [exact H | right; exists d; reflexivity].
Qed.

Lemma radix_or_exponent_gives_float_small :
  (In SetRadPoint [AddDigit 7; SetRadPoint]
   \/ (exists d, In (AddExpDigit d) [AddDigit 7; SetRadPoint])) /\
  fst (number_parser_end
         (run [AddDigit 7; SetRadPoint] (number_parser_init 10))) = 1.
Proof.
  assert (H : In SetRadPoint [AddDigit 7; SetRadPoint])
    by (simpl; right; left; reflexivity).
  split; [left; exact H |].
  apply (radix_or_exponent_gives_float 10 [AddDigit 7; SetRadPoint]).
  left; exact H.
Defined.

(** ** The integer mantissa *)

(** One more digit on an integer mantissa that still fits: the parser
    stays an integer, the magnitude is multiplied by the base and the
    digit is added, and the digit count goes up by one. *)
Lemma add_digit_exact (p : number_parser) (d : Z) :
  is_float p = false ->
  0 <= int_len p < MAX_LEN ->
  1 <= base p ->
  0 <= d ->
  0 <= uval p ->
  uval p * base p + d <= MAX_INT ->
  number_parser_add_digit p d
  = set_int_len (int_len p + 1) (set_word (uval p * base p + d) p).
Proof.
  destruct p. unfold uval, MAX_LEN, MAX_INT. simpl.
  intros -> Hl Hb Hd Hu Hv.
  assert (Hq : word0 <= 2 ^ 63 / base0)
    by (apply Z.div_le_lower_bound; nia).
  open_op. unfold MAX_LEN, MAX_INT.
  destruct (Z.geb_spec int_len0 32767); [lia |]. simpl.
  destruct (Z.gtb_spec word0 (2 ^ 63 / base0)); [lia |]. simpl.
  rewrite (u64_small (word0 * base0)) by nia.
  rewrite (u64_small (2 ^ 63 - d)) by lia.
  destruct (Z.gtb_spec (word0 * base0) (2 ^ 63 - d)); [lia |].
  unfold_setters. simpl.
  rewrite u64_small by nia.
  rewrite s16_small by lia.
  reflexivity.
Qed.

(** While the parser is an integer after a digit, its magnitude is at
    most 2^63: a digit that would take it further converts to float. *)
Lemma add_digit_bound (p : number_parser) (d : Z) :
  1 <= base p ->
  0 <= d < 2 ^ 63 ->
  (is_float p = false -> 0 <= uval p <= MAX_INT) ->
  is_float (number_parser_add_digit p d) = false ->
  0 <= uval (number_parser_add_digit p d) <= MAX_INT.
Proof.
  destruct p. unfold uval, MAX_INT. simpl. intros Hb Hd Hu.
  open_op. unfold MAX_LEN, MAX_INT.
  destruct (Z.geb_spec int_len0 32767); simpl; [exact Hu |].
  destruct is_float0; simpl; [discriminate |].
  specialize (Hu eq_refl).
  destruct (Z.gtb_spec word0 (2 ^ 63 / base0)); simpl; [discriminate |].
  assert (Hm : word0 * base0 <= 2 ^ 63).
  { pose proof (Z.mul_div_le (2 ^ 63) base0 ltac:(lia)). nia. }
  rewrite (u64_small (word0 * base0)) by nia.
  rewrite (u64_small (2 ^ 63 - d)) by lia.
  destruct (Z.gtb_spec (word0 * base0) (2 ^ 63 - d)); simpl; [discriminate |].
  intros _. unfold_setters. simpl. rewrite u64_small by nia. nia.
Qed.

(** A digit that takes an integer magnitude beyond 2^63 converts the
    parser to floating-point. *)
Lemma add_digit_promotes (p : number_parser) (d : Z) :
  1 <= base p ->
  0 <= d < 2 ^ 63 ->
  int_len p < MAX_LEN ->
  is_float p = false ->
  0 <= uval p <= MAX_INT ->
  MAX_INT < uval p * base p + d ->
  is_float (number_parser_add_digit p d) = true.
Proof.
  destruct p. unfold uval, MAX_INT, MAX_LEN. simpl.
  intros Hb Hd Hl -> Hu Hv.
  open_op. unfold MAX_LEN, MAX_INT.
  destruct (Z.geb_spec int_len0 32767); [lia |]. simpl.
  destruct (Z.gtb_spec word0 (2 ^ 63 / base0)); simpl; [reflexivity |].
  assert (Hm : word0 * base0 <= 2 ^ 63).
  { pose proof (Z.mul_div_le (2 ^ 63) base0 ltac:(lia)). nia. }
  unfold_setters. simpl.
  rewrite (u64_small (word0 * base0)) by nia.
  rewrite (u64_small (2 ^ 63 - d)) by lia.
  destruct (Z.gtb_spec (word0 * base0) (2 ^ 63 - d)); simpl;
    [reflexivity | lia].
Qed.

Lemma add_digit_base (p : number_parser) (d : Z) :
  base (number_parser_add_digit p d) = base p.
Proof. apply (add_digit_frame p d). Qed.

Lemma step_magnitude_ok (b : Z) (p : number_parser) (o : op) :
  valid_base b -> valid_op b o -> magnitude_ok b p ->
  magnitude_ok b (step p o).
Proof.
  unfold valid_base, magnitude_ok. intros Hb Ho [E Hu].
  destruct o as [d | d | | n | n]; simpl.
  - split; [rewrite add_digit_base; exact E |].
    simpl in Ho. unfold valid_digit in Ho.
    apply add_digit_bound; [lia | lia | exact Hu].
  - unfold number_parser_add_exp_digit.
    destruct (exp_val p <? MAX_EXP); simpl; split; assumption.
  - split; assumption.
  - split; assumption.
  - split; assumption.
Qed.

Lemma run_magnitude_ok (b : Z) (ops : list op) (p : number_parser) :
  valid_base b -> Forall (valid_op b) ops -> magnitude_ok b p ->
  magnitude_ok b (run ops p).
Proof.
  intros Hb Hops. revert p.
  induction Hops as [| o ops Ho _ IH]; intros p H; [exact H |].
  apply (IH (step p o)), step_magnitude_ok; assumption.
Qed.

(** C5.  In every state reached from [number_parser_init] by the
    accumulation operations, with mantissa digits that are digits of the
    base, the magnitude [uval] is at most 2^63 as long as the parser is
    an integer.  One more [number_parser_add_digit] keeps it so: after it
    the parser either is floating-point or again has a magnitude of at
    most 2^63; and when the digit is taken (the cap is not reached) and
    would bring the magnitude beyond 2^63, the parser is converted to
    floating-point. *)
Theorem integer_magnitude_bounded (b : Z) (ops : list op) (d : Z) :
  valid_base b ->
  Forall (valid_op b) ops ->
  valid_digit b d ->
  let p := run ops (number_parser_init b) in
  (is_float p = false -> 0 <= uval p <= 2 ^ 63) /\
  (is_float (number_parser_add_digit p d) = false ->
   0 <= uval (number_parser_add_digit p d) <= 2 ^ 63) /\
  (is_float p = false -> int_len p < MAX_LEN -> 2 ^ 63 < uval p * b + d ->
   is_float (number_parser_add_digit p d) = true).
Proof.
  intros Hb Hops Hd p.
  assert (H : magnitude_ok b p).
  { apply run_magnitude_ok; [exact Hb | exact Hops |].
    split; [reflexivity |]. intros _. unfold uval, MAX_INT. simpl. lia. }
  split; [exact (proj2 H) |].
  split; [exact (proj2 (step_magnitude_ok b p (AddDigit d) Hb Hd H)) |].
  destruct H as [E Hu]. intros Hf Hl Hv.
  unfold valid_base in Hb. unfold valid_digit in Hd.
  apply add_digit_promotes; rewrite ?E; unfold MAX_INT; auto; lia.
Qed.

(** The digits of 2^63 - 1 in base 2, followed by one more digit. *)
Lemma integer_magnitude_bounded_base2 :
  valid_base 2 /\
  Forall (valid_op 2) (repeat (AddDigit 1) 63) /\
  valid_digit 2 1 /\
  let p := run (repeat (AddDigit 1) 63) (number_parser_init 2) in
  (is_float p = false -> 0 <= uval p <= 2 ^ 63) /\
  (is_float (number_parser_add_digit p 1) = false ->
   0 <= uval (number_parser_add_digit p 1) <= 2 ^ 63) /\
  (is_float p = false -> int_len p < MAX_LEN -> 2 ^ 63 < uval p * 2 + 1 ->
   is_float (number_parser_add_digit p 1) = true).
Proof.
  assert (Hb : valid_base 2) by (unfold valid_base; lia).
  assert (Hd : valid_digit 2 1) by (unfold valid_digit; lia).
  assert (Hops : Forall (valid_op 2) (repeat (AddDigit 1) 63)).
  { apply Forall_forall. intros o Ho.
    apply repeat_spec in Ho. subst o. exact Hd. }
  split; [exact Hb |]. split; [exact Hops |]. split; [exact Hd |].
  exact (integer_magnitude_bounded 2 (repeat (AddDigit 1) 63) 1 Hb Hops Hd).
Defined.

(** ** Exact integers *)

Lemma digits_value_snoc (b : Z) (ds : list Z) (d : Z) :
  digits_value b (ds ++ [d]) = digits_value b ds * b + d.
Proof. unfold digits_value. rewrite fold_left_app. reflexivity. Qed.

Lemma add_digits_snoc (ds : list Z) (d : Z) (p : number_parser) :
  add_digits (ds ++ [d]) p = number_parser_add_digit (add_digits ds p) d.
Proof. unfold add_digits. rewrite fold_left_app. reflexivity. Qed.

Section Digits.

Variable b : Z.
Hypothesis base_pos : 1 <= b.

Lemma digits_fold_ge (ds : list Z) (acc : Z) :
  Forall (valid_digit b) ds -> 0 <= acc ->
  acc <= fold_left (fun a d => a * b + d) ds acc.
Proof.
  intros Hds. revert acc.
  induction Hds as [| d ds Hd _ IH]; intros acc Ha; simpl; [lia |].
  unfold valid_digit in Hd.
  specialize (IH (acc * b + d) ltac:(nia)). nia.
Qed.

Lemma digits_value_nonneg (ds : list Z) :
  Forall (valid_digit b) ds -> 0 <= digits_value b ds.
Proof. intros Hds. apply (digits_fold_ge ds 0 Hds). lia. Qed.

(** The value of a prefix is at most the value of the whole sequence. *)
Lemma digits_value_prefix (ds : list Z) (k : nat) :
  Forall (valid_digit b) ds ->
  digits_value b (firstn k ds) <= digits_value b ds.
Proof.
  intros Hds.
  rewrite <- (firstn_skipn k ds) in Hds. apply Forall_app in Hds.
  destruct Hds as [H1 H2].
  rewrite <- (firstn_skipn k ds) at 2.
  unfold digits_value at 2. rewrite fold_left_app.
  apply digits_fold_ge; [exact H2 |].
  apply digits_value_nonneg; assumption.
Qed.

End Digits.

Lemma Forall_prefix {A : Type} (P : A -> Prop) (l : list A) (k : nat) :
  Forall P l -> Forall P (firstn k l).
Proof.
  intros H. rewrite <- (firstn_skipn k l) in H.
  apply Forall_app in H. exact (proj1 H).
Qed.

(** As long as the digits fit in the cap and their value is at most 2^63,
    the parser holds exactly that value, as an integer. *)
Lemma add_digits_exact (b : Z) (ds : list Z) :
  valid_base b ->
  Forall (valid_digit b) ds ->
  Z.of_nat (length ds) <= MAX_LEN ->
  digits_value b ds <= MAX_INT ->
  add_digits ds (number_parser_init b)
  = set_int_len (Z.of_nat (length ds))
      (set_word (digits_value b ds) (number_parser_init b)).
Proof.
  unfold valid_base. intros Hb.
  induction ds as [| d ds IH] using rev_ind; intros Hds Hl Hv;
    [reflexivity |].
  apply Forall_app in Hds. destruct Hds as [Hds Hd].
  apply Forall_inv in Hd. unfold valid_digit in Hd.
  rewrite length_app in Hl. simpl in Hl.
  rewrite digits_value_snoc in Hv.
  pose proof (digits_value_nonneg b ltac:(lia) ds Hds) as Hn.
  rewrite add_digits_snoc, IH; [| exact Hds | lia | nia].
  rewrite add_digit_exact; unfold_setters; simpl; try lia; try reflexivity.
  rewrite length_app, digits_value_snoc. simpl.
  replace (Z.of_nat (length ds + 1)) with (Z.of_nat (length ds) + 1) by lia.
  reflexivity.
Qed.

(** 32767 digits 0 fill the parser up to the cap and leave the value 0. *)
Lemma digits_value_zeros (b : Z) (n : nat) : digits_value b (repeat 0 n) = 0.
Proof.
  unfold digits_value. induction n as [| n IH]; [reflexivity |].
  simpl. exact IH.
Qed.

Lemma add_zeros (b : Z) :
  valid_base b ->
  add_digits (repeat 0 (Z.to_nat MAX_LEN)) (number_parser_init b)
  = set_int_len MAX_LEN (number_parser_init b).
Proof.
  intros Hb. rewrite add_digits_exact.
  - rewrite digits_value_zeros, repeat_length, Z2Nat.id
      by (unfold MAX_LEN; lia).
    reflexivity.
  - exact Hb.
  - apply Forall_forall. intros d Hd. apply repeat_spec in Hd. subst d.
    unfold valid_base in Hb. unfold valid_digit. lia.
  - rewrite repeat_length, Z2Nat.id by (unfold MAX_LEN; lia). lia.
  - rewrite digits_value_zeros. unfold MAX_INT. lia.
Qed.

(** ** The digit cap *)

Lemma add_digit_at_cap (p : number_parser) (d : Z) :
  MAX_LEN <= int_len p -> number_parser_add_digit p d = p.
Proof.
  intros H. unfold number_parser_add_digit.
  destruct (Z.geb_spec (int_len p) MAX_LEN); [reflexivity | lia].
Qed.

Lemma add_digits_at_cap (ds : list Z) (p : number_parser) :
  MAX_LEN <= int_len p -> add_digits ds p = p.
Proof.
  intros H. induction ds as [| d ds IH]; [reflexivity |].
  unfold add_digits in *. simpl. rewrite add_digit_at_cap by exact H.
  exact IH.
Qed.

(** C8.  Once [int_len] has reached [MAX_LEN] = 32767,
    [number_parser_add_digit] leaves the whole parser state unchanged, for
    one digit and for any further run of digits, and so
    [number_parser_end] gives the same result as it gives at the cap. *)
Theorem digits_beyond_cap_ignored (p : number_parser) :
  MAX_LEN <= int_len p ->
  (forall d, number_parser_add_digit p d = p) /\
  (forall ds, add_digits ds p = p) /\
  (forall ds, number_parser_end (add_digits ds p) = number_parser_end p).
Proof.
  intros H. repeat split; intros.
  - apply add_digit_at_cap, H.
  - apply add_digits_at_cap, H.
  - rewrite add_digits_at_cap by exact H. reflexivity.
Qed.

Lemma digits_beyond_cap_ignored_full :
  MAX_LEN <= int_len full_parser /\
  (forall d, number_parser_add_digit full_parser d = full_parser) /\
  (forall ds, add_digits ds full_parser = full_parser) /\
  (forall ds, number_parser_end (add_digits ds full_parser)
              = number_parser_end full_parser).
Proof.
  assert (H : MAX_LEN <= int_len full_parser).
  { unfold full_parser. rewrite add_zeros by (unfold valid_base; lia).
    simpl. lia. }
  split; [exact H |].
  apply (digits_beyond_cap_ignored full_parser H).
Defined.

(** C1, within the digit cap.  For every base from 2 to 255 and every
    sequence of at most 32767 digits of that base, most significant
    first, whose value with the chosen sign lies in [-2^63, 2^63 - 1]:
    the parser is an integer after every prefix of the digits (it is
    never converted to floating-point), and after
    [number_parser_set_neg], [number_parser_end] returns 0 (integer) and
    [ival] is the exact signed value. *)
Theorem integer_exact_within_cap (b : Z) (ds : list Z) (negative : Z) :
  valid_base b ->
  Forall (valid_digit b) ds ->
  Z.of_nat (length ds) <= MAX_LEN ->
  let v := if negative =? 0 then digits_value b ds
           else - digits_value b ds in
  - 2 ^ 63 <= v <= 2 ^ 63 - 1 ->
  let p := add_digits ds (number_parser_init b) in
  let r := number_parser_end (number_parser_set_neg p negative) in
  (forall k, is_float (add_digits (firstn k ds) (number_parser_init b))
             = false) /\
  is_float p = false /\
  fst r = 0 /\ is_float (snd r) = false /\ ival (snd r) = v.
Proof.
  intros Hb Hds Hl v Hv p r.
  assert (Hb1 : 1 <= b) by (unfold valid_base in Hb; lia).
  pose proof (digits_value_nonneg b Hb1 ds Hds) as Hn.
  assert (Hm : digits_value b ds <= MAX_INT).
  { unfold MAX_INT. subst v. destruct (negative =? 0); lia. }
  split.
  { intros k. rewrite add_digits_exact; [reflexivity | exact Hb | | |].
    - apply Forall_prefix, Hds.
    - rewrite length_firstn. lia.
    - pose proof (digits_value_prefix b Hb1 ds k Hds). lia. }
  subst r p. rewrite add_digits_exact by assumption.
  subst v. open_op. unfold MAX_POS_INT, MAX_INT in *.
  destruct (negative =? 0); simpl.
  - destruct (Z.gtb_spec (digits_value b ds) (2 ^ 63 - 1)); [lia |].
    simpl. repeat split. apply s64_nonneg. lia.
  - repeat split. apply s64_negate. lia.
Qed.

Lemma integer_exact_within_cap_hex :
  valid_base 16 /\
  Forall (valid_digit 16) [7; 15; 15] /\
  Z.of_nat (length [7; 15; 15]) <= MAX_LEN /\
  - 2 ^ 63 <= - digits_value 16 [7; 15; 15] <= 2 ^ 63 - 1 /\
  let p := add_digits [7; 15; 15] (number_parser_init 16) in
  let r := number_parser_end (number_parser_set_neg p 1) in
  (forall k, is_float (add_digits (firstn k [7; 15; 15])
                         (number_parser_init 16)) = false) /\
  is_float p = false /\
  fst r = 0 /\ is_float (snd r) = false /\ ival (snd r) = - 2047.
Proof.
  assert (Hb : valid_base 16) by (unfold valid_base; lia).
  assert (Hds : Forall (valid_digit 16) [7; 15; 15])
    by (repeat constructor; unfold valid_digit; lia).
  assert (Hl : Z.of_nat (length [7; 15; 15]) <= MAX_LEN)
    by (vm_compute; intros E; discriminate E).
  assert (Hv : - 2 ^ 63 <= - digits_value 16 [7; 15; 15] <= 2 ^ 63 - 1)
    by (vm_compute; split; intros E; discriminate E).
  split; [exact Hb |]. split; [exact Hds |]. split; [exact Hl |].
  split; [exact Hv |].
  exact (integer_exact_within_cap 16 [7; 15; 15] 1 Hb Hds Hl Hv).
Defined.

Lemma long_digits_result :
  digits_value 10 long_digits = 1 /\
  number_parser_end
    (number_parser_set_neg (add_digits long_digits (number_parser_init 10)) 0)
  = (0, set_int_len MAX_LEN (number_parser_init 10)).
Proof.
  unfold long_digits. split.
  - rewrite digits_value_snoc, digits_value_zeros. reflexivity.
  - rewrite add_digits_snoc, add_zeros by (unfold valid_base; lia).
    reflexivity.
Qed.

(** C1 as stated fails: a sequence of more than 32767 digits loses its
    tail. *)
Lemma integer_exact_any_length_fails : ~ integer_exact_any_length.
Proof.
  intros H.
  specialize (H 10 long_digits 0).
  destruct long_digits_result as [Hv Hr].
  cbv zeta in H. rewrite Hr, Hv in H.
  assert (Hb : valid_base 10) by (unfold valid_base; lia).
  assert (Hds : Forall (valid_digit 10) long_digits).
  { unfold long_digits. apply Forall_app. split.
    - apply Forall_forall. intros d Hd. apply repeat_spec in Hd.
      subst d. unfold valid_digit. lia.
    - repeat constructor; unfold valid_digit; lia. }
  destruct (H Hb Hds) as [_ Hi].
  - simpl. lia.
  - vm_compute in Hi. discriminate Hi.
Qed.

(** ** The radix offset *)

Lemma step_rad_off (p : number_parser) (o : op) :
  o <> SetRadPoint -> rad_off (step p o) = rad_off p.
Proof.
  intros Ho. destruct o as [d | d | | n | n]; simpl.
  - apply (add_digit_frame p d).
  - unfold number_parser_add_exp_digit.
    destruct (exp_val p <? MAX_EXP); reflexivity.
  - contradiction Ho. reflexivity.
  - reflexivity.
  - reflexivity.
Qed.

(** C6, as the code has it.  The radix offset is changed by no operation
    other than [number_parser_set_rad_point]: digits, exponent digits,
    the two sign setters and [number_parser_end] leave it as it is.
    [number_parser_set_rad_point] itself has no guard: every call, the
    first as well as a later one, sets the offset to the current digit
    count. *)
Theorem radix_offset_kept_by_other_operations
  (p : number_parser) (ops : list op) :
  Forall (fun o => o <> SetRadPoint) ops ->
  rad_off (run ops p) = rad_off p /\
  rad_off (snd (number_parser_end (run ops p))) = rad_off p /\
  rad_off (number_parser_set_rad_point (run ops p)) = int_len (run ops p).
Proof.
  intros Hops.
  assert (H : rad_off (run ops p) = rad_off p).
  { revert p. induction Hops as [| o ops Ho _ IH]; intros p; [reflexivity |].
    simpl. rewrite IH. apply step_rad_off, Ho. }
  split; [exact H |]. split; [| reflexivity].
  destruct (end_frame (run ops p)) as (_ & R & _). rewrite R. exact H.
Qed.

Lemma radix_offset_kept_by_other_operations_small :
  let p := run [AddDigit 1; AddDigit 2; SetRadPoint] (number_parser_init 10) in
  let ops := [AddDigit 3; AddExpDigit 4; SetNeg 1; SetExpNeg 1] in
  Forall (fun o => o <> SetRadPoint) ops /\
  rad_off p = 2 /\
  rad_off (run ops p) = rad_off p /\
  rad_off (snd (number_parser_end (run ops p))) = rad_off p /\
  rad_off (number_parser_set_rad_point (run ops p)) = int_len (run ops p).
Proof.
  intros p ops.
  assert (H : Forall (fun o => o <> SetRadPoint) ops)
    by (repeat constructor; discriminate).
  split; [exact H |]. split; [reflexivity |].
  exact (radix_offset_kept_by_other_operations p ops H).
Defined.

(** A second [number_parser_set_rad_point] after one more digit moves the
    offset from 0 to 1. *)
Lemma radix_offset_immutable_fails : ~ radix_offset_immutable.
Proof.
  intros H. specialize (H 10 [] [AddDigit 1; SetRadPoint]).
  vm_compute in H. discriminate H.
Qed.

(** ** Calling [number_parser_end] twice *)

Lemma s64_range (z : Z) : - 2 ^ 63 <= s64 z < 2 ^ 63.
Proof.
  unfold s64. pose proof (Z.mod_pos_bound z (2 ^ 64) ltac:(lia)).
  destruct (Z.ltb_spec (z mod 2 ^ 64) (2 ^ 63)); lia.
Qed.

Lemma s64_u64 (z : Z) : s64 (u64 z) = s64 z.
Proof. unfold s64, u64. rewrite Z.mod_mod by lia. reflexivity. Qed.

Lemma s64_signed (z : Z) : - 2 ^ 63 <= z < 2 ^ 63 -> s64 z = z.
Proof.
  intros H. destruct (Z.leb_spec 0 z); [apply s64_nonneg; lia |].
  unfold s64. replace (z mod 2 ^ 64) with (z + 2 ^ 64).
  - destruct (Z.ltb_spec (z + 2 ^ 64) (2 ^ 63)); lia.
  - apply Z.mod_unique with (q := -1); lia.
Qed.

(** Negating twice in 64-bit two's complement gives the value back. *)
Lemma s64_negate_twice (w : Z) : s64 (- s64 (- s64 w)) = s64 w.
Proof.
  pose proof (s64_range w) as H.
  destruct (Z.eq_dec (s64 w) (- 2 ^ 63)) as [E | E].
  - rewrite E. reflexivity.
  - rewrite (s64_signed (- s64 w)) by lia.
    rewrite Z.opp_involutive. apply s64_signed, H.
Qed.

Lemma end_integer_inv (p : number_parser) :
  fst (number_parser_end p) = 0 ->
  is_float p = false /\ end_promotes p = false.
Proof.
  rewrite end_returns_kind, end_is_float.
  destruct (is_float p), (end_promotes p); simpl; intros H;
    try discriminate H; split; reflexivity.
Qed.

Lemma end_integer_state (p : number_parser) :
  is_float p = false -> end_promotes p = false ->
  snd (number_parser_end p)
  = if sign p then set_ival (- ival p) p else p.
Proof.
  unfold end_promotes. destruct p. unfold uval. simpl. intros -> H.
  open_op. rewrite H. simpl. destruct sign0; reflexivity.
Qed.

(** Storing a negated integer does not touch what the conversion test
    of [number_parser_end] looks at when the sign is negative. *)
Lemma end_promotes_negated (p : number_parser) (v : Z) :
  sign p = true -> end_promotes (set_ival v p) = end_promotes p.
Proof.
  intros H. unfold end_promotes. destruct p. simpl in H. subst.
  reflexivity.
Qed.

(** C7, as the code has it.  A second [number_parser_end] directly after
    the first returns the same kind.  When that kind is integer and the
    sign is non-negative, the second call leaves the parser and its
    result as the first call left them.  When the kind is integer and the
    sign is negative, the first call stores the negated value and the
    second call negates it again, which gives back the value from before
    the first call. *)
Theorem end_twice (p : number_parser) :
  let r1 := number_parser_end p in
  let r2 := number_parser_end (snd r1) in
  fst r2 = fst r1 /\
  (fst r1 = 0 ->
   ival (snd r1) = (if sign p then s64 (- ival p) else ival p) /\
   ival (snd r2) = ival p /\
   (sign p = false -> snd r2 = snd r1)).
Proof.
  intros r1 r2. subst r1 r2.
  assert (Hk : fst (number_parser_end (snd (number_parser_end p)))
               = fst (number_parser_end p)).
  { rewrite !end_returns_kind, !end_is_float.
    destruct (is_float p) eqn:Hf; [reflexivity |].
    destruct (end_promotes p) eqn:Hp; [reflexivity |].
    rewrite (end_integer_state p Hf Hp).
    destruct (sign p) eqn:Hs.
    - rewrite end_promotes_negated by exact Hs. rewrite Hp. reflexivity.
    - rewrite Hp. reflexivity. }
  split; [exact Hk |].
  intros H0. destruct (end_integer_inv p H0) as [Hf Hp].
  assert (H1 : fst (number_parser_end (snd (number_parser_end p))) = 0)
    by (rewrite Hk; exact H0).
  destruct (end_integer_inv _ H1) as [Hf1 Hp1].
  rewrite (end_integer_state _ Hf1 Hp1).
  rewrite (end_integer_state p Hf Hp).
  destruct (sign p) eqn:Hs.
  - clear Hk H0 H1 Hf1 Hp1 Hp Hf. destruct p. simpl in Hs. subst.
    unfold ival, set_ival, set_word. simpl.
    rewrite !s64_u64. split; [reflexivity |].
    split; [apply s64_negate_twice | discriminate].
  - rewrite Hs. repeat split.
Qed.

Lemma end_twice_minus_five :
  let p := run [AddDigit 5; SetNeg 1] (number_parser_init 10) in
  let r1 := number_parser_end p in
  let r2 := number_parser_end (snd r1) in
  fst r2 = fst r1 /\
  (fst r1 = 0 ->
   ival (snd r1) = - 5 /\
   ival (snd r2) = 5 /\
   (sign p = false -> snd r2 = snd r1)).
Proof.
  exact (end_twice (run [AddDigit 5; SetNeg 1] (number_parser_init 10))).
Defined.

(** The number -5: the first call gives -5, the second gives 5. *)
Lemma end_twice_reproduces_fails : ~ end_twice_reproduces.
Proof.
  intros H. specialize (H 10 [AddDigit 5; SetNeg 1]).
  destruct H as (_ & H & _).
  - unfold valid_base. lia.
  - repeat constructor; unfold valid_digit; lia.
  - assert (E : ival (snd (number_parser_end (snd (number_parser_end
                  (run [AddDigit 5; SetNeg 1] (number_parser_init 10))))))
                = ival (snd (number_parser_end
                  (run [AddDigit 5; SetNeg 1] (number_parser_init 10)))))
      by (apply H; reflexivity).
    vm_compute in E. discriminate E.
Qed.

(** A floating-point result is scaled again by the second call: for 12.3
    the first call gives 123 / 10 and the second divides by 10 once
    more. *)
Example end_twice_float :
  let p := run [AddDigit 1; AddDigit 2; SetRadPoint; AddDigit 3]
               (number_parser_init 10) in
  let r1 := number_parser_end p in
  let r2 := number_parser_end (snd r1) in
  fst r1 = 1 /\ fst r2 = 1 /\
  fval (snd r1) = B64.div (B64.of_Z 123) (B64.of_Z 10) /\
  fval (snd r2) = B64.div (B64.div (B64.of_Z 123) (B64.of_Z 10))
                          (B64.of_Z 10) /\
  fval (snd r2) <> fval (snd r1).
Proof.
  vm_compute. repeat split; discriminate.
Qed.

(** ** Exponent digits *)

(** What [number_parser_add_exp_digit] does: at or above [MAX_EXP] the
    digit is ignored and the parser is left as it is; below, [has_exp] is
    set and [exp_val] receives [exp_val * base + digit] converted to
    [int16_t], which is that very number whenever it is at most 32767. *)
Lemma add_exp_digit_cases (p : number_parser) (d : Z) :
  MAX_EXP = 308 /\
  (MAX_EXP <= exp_val p -> number_parser_add_exp_digit p d = p) /\
  (exp_val p < MAX_EXP ->
   let q := number_parser_add_exp_digit p d in
   has_exp q = true /\
   exp_val q = s16 (exp_val p * base p + d) /\
   (- 2 ^ 15 <= exp_val p * base p + d < 2 ^ 15 ->
    exp_val q = exp_val p * base p + d) /\
   q = set_has_exp true (set_exp_val (exp_val q) p)).
Proof.
  split; [reflexivity |].
  unfold number_parser_add_exp_digit.
  destruct (Z.ltb_spec (exp_val p) MAX_EXP); split; intros H';
    try lia; try reflexivity.
  simpl. repeat split. intros Hr. apply s16_small, Hr.
Qed.

(** C9 at this input.  Both digits are digits of the base and the first
    leaves [exp_val] = 200, below the ceiling, so the second is taken;
    but [exp_val] is an [int16_t] and cannot hold 51200: it is left at
    -14336.  [number_parser_end] then divides by 255^14336 and returns
    the floating-point value 0 for a number that exceeds the range of a
    [double]. *)
Theorem exponent_digit_overflows_int16 :
  valid_digit 255 200 /\
  exp_val (run [AddDigit 1; AddExpDigit 200] (number_parser_init 255)) = 200 /\
  200 * 255 + 200 = 51200 /\
  exp_val wide_exponent_parser = - 14336 /\
  has_exp wide_exponent_parser = true /\
  fst (number_parser_end wide_exponent_parser) = 1 /\
  fval (snd (number_parser_end wide_exponent_parser)) = S754_zero false.
Proof.
  split; [unfold valid_digit; lia |].
  vm_compute. repeat split.
Qed.

(** * Further properties of the operations *)

(** ** The kind is one-way *)

Lemma add_exp_digit_frame (p : number_parser) (d : Z) :
  let q := number_parser_add_exp_digit p d in
  int_len q = int_len p /\ rad_off q = rad_off p /\ base q = base p /\
  sign q = sign p /\ exp_sign q = exp_sign p /\ is_float q = is_float p /\
  was_int q = was_int p /\ word q = word p.
Proof.
  unfold number_parser_add_exp_digit.
  destruct (exp_val p <? MAX_EXP); simpl; repeat split; reflexivity.
Qed.

Lemma step_float_stays (p : number_parser) (o : op) :
  is_float p = true -> is_float (step p o) = true.
Proof.
  intros H. destruct o as [d | d | | n | n]; simpl.
  - apply add_digit_float_stays, H.
  - destruct (add_exp_digit_frame p d) as (_ & _ & _ & _ & _ & E & _).
    rewrite E. exact H.
  - exact H.
  - exact H.
  - exact H.
Qed.

Lemma run_float_stays (ops : list op) (p : number_parser) :
  is_float p = true -> is_float (run ops p) = true.
Proof.
  revert p. induction ops as [| o ops IH]; intros p H; [exact H |].
  apply IH, step_float_stays, H.
Qed.

(** X1.  Once a parser is floating-point it stays floating-point under every
    further operation, and [number_parser_end] returns 1 for it. *)
Theorem float_kind_is_final (p : number_parser) (ops : list op) :
  is_float p = true ->
  is_float (run ops p) = true /\
  fst (number_parser_end (run ops p)) = 1 /\
  is_float (snd (number_parser_end (run ops p))) = true.
Proof.
  intros H. pose proof (run_float_stays ops p H) as Hr.
  split; [exact Hr |].
  rewrite end_returns_kind, end_is_float, Hr. split; reflexivity.
Qed.

Lemma float_kind_is_final_nines :
  let p := add_digits (repeat 9 19) (number_parser_init 10) in
  let ops := [SetNeg 1; AddDigit 0; AddDigit 0] in
  is_float p = true /\
  is_float (run ops p) = true /\
  fst (number_parser_end (run ops p)) = 1 /\
  is_float (snd (number_parser_end (run ops p))) = true.
Proof.
  intros p ops.
  assert (H : is_float p = true) by (vm_compute; reflexivity).
  split; [exact H |].
  exact (float_kind_is_final p ops H).
Defined.

(** ** Counting digits *)

Lemma add_digit_int_len (p : number_parser) (d : Z) :
  0 <= int_len p <= MAX_LEN ->
  int_len (number_parser_add_digit p d) = Z.min (int_len p + 1) MAX_LEN.
Proof.
  destruct p. open_op. unfold MAX_LEN. intros H.
  destruct (Z.geb_spec int_len0 32767); simpl; [lia |].
  split_tests; rewrite s16_small; lia.
Qed.

Lemma step_int_len (p : number_parser) (o : op) :
  0 <= int_len p <= MAX_LEN ->
  int_len (step p o)
  = if is_add_digit o then Z.min (int_len p + 1) MAX_LEN else int_len p.
Proof.
  intros H. destruct o as [d | d | | n | n]; simpl; try reflexivity.
  - apply add_digit_int_len, H.
  - apply (add_exp_digit_frame p d).
Qed.

Lemma run_int_len (ops : list op) (p : number_parser) :
  0 <= int_len p <= MAX_LEN ->
  int_len (run ops p) = Z.min (int_len p + count_digits ops) MAX_LEN.
Proof.
  unfold count_digits. revert p.
  induction ops as [| o ops IH]; intros p H; simpl.
  - unfold MAX_LEN in *. lia.
  - assert (H' : 0 <= int_len (step p o) <= MAX_LEN).
    { rewrite step_int_len by exact H. destruct (is_add_digit o); lia. }
    rewrite (IH _ H'). rewrite step_int_len by exact H.
    destruct (is_add_digit o); simpl length; lia.
Qed.

Lemma int_len_run_init (b : Z) (ops : list op) :
  int_len (run ops (number_parser_init b)) = Z.min (count_digits ops) MAX_LEN.
Proof.
  rewrite run_int_len by (simpl; unfold MAX_LEN; lia). reflexivity.
Qed.

(** X2.  The digit count [int_len] is the number of
    [number_parser_add_digit] calls made so far, whatever the digits and
    whatever the kind, as long as there are at most 32767 of them; from
    then on it stays at 32767. *)
Theorem int_len_counts_digits (b : Z) (ops : list op) :
  int_len (run ops (number_parser_init b))
  = Z.min (count_digits ops) MAX_LEN.
Proof. apply int_len_run_init. Qed.

Lemma run_app (ops1 ops2 : list op) (p : number_parser) :
  run (ops1 ++ ops2) p = run ops2 (run ops1 p).
Proof. unfold run. apply fold_left_app. Qed.

Lemma run_rad_off_kept (ops : list op) (p : number_parser) :
  Forall (fun o => o <> SetRadPoint) ops -> rad_off (run ops p) = rad_off p.
Proof.
  intros H. revert p.
  induction H as [| o ops Ho _ IH]; intros p; [reflexivity |].
  simpl. rewrite IH. apply step_rad_off, Ho.
Qed.

(** X3.  After the last [number_parser_set_rad_point] of a sequence, the radix
    offset is the number of digits added before that call (at most
    32767), so the number of digits behind the radix point,
    [int_len - rad_off], is never negative.  Without any such call the
    offset is still -1. *)
Theorem rad_off_counts_digits_before
  (b : Z) (before after : list op) :
  Forall (fun o => o <> SetRadPoint) after ->
  let p := run (before ++ SetRadPoint :: after) (number_parser_init b) in
  rad_off p = Z.min (count_digits before) MAX_LEN /\
  0 <= int_len p - rad_off p <= count_digits after /\
  rad_off (run after (number_parser_init b)) = -1.
Proof.
  intros Ha p. subst p.
  assert (Hr : rad_off (run (before ++ SetRadPoint :: after)
                          (number_parser_init b))
               = Z.min (count_digits before) MAX_LEN).
  { rewrite run_app. simpl. rewrite run_rad_off_kept by exact Ha.
    simpl. apply int_len_run_init. }
  split; [exact Hr |]. split.
  - rewrite Hr, int_len_run_init. unfold count_digits.
    rewrite filter_app, length_app. simpl. unfold MAX_LEN. lia.
  - rewrite run_rad_off_kept by exact Ha. reflexivity.
Qed.

Lemma rad_off_counts_digits_before_small :
  let before := [AddDigit 1; AddDigit 2] in
  let after := [AddDigit 3; AddExpDigit 4; SetNeg 1] in
  Forall (fun o => o <> SetRadPoint) after /\
  let p := run (before ++ SetRadPoint :: after) (number_parser_init 10) in
  rad_off p = 2 /\
  0 <= int_len p - rad_off p <= 1 /\
  rad_off (run after (number_parser_init 10)) = -1.
Proof.
  intros before after.
  assert (H : Forall (fun o => o <> SetRadPoint) after)
    by (repeat constructor; discriminate).
  split; [exact H |].
  exact (rad_off_counts_digits_before 10 before after H).
Defined.

(** ** Fields no operation writes *)

Lemma step_base_was_int (p : number_parser) (o : op) :
  base (step p o) = base p /\ was_int (step p o) = was_int p.
Proof.
  destruct o as [d | d | | n | n]; simpl; try (split; reflexivity).
  - destruct (add_digit_frame p d) as (_ & _ & B & _ & _ & _ & W).
    split; assumption.
  - destruct (add_exp_digit_frame p d) as (_ & _ & B & _ & _ & _ & W & _).
    split; assumption.
Qed.

Lemma run_base_was_int (ops : list op) (p : number_parser) :
  base (run ops p) = base p /\ was_int (run ops p) = was_int p.
Proof.
  revert p. induction ops as [| o ops IH]; intros p; [split; reflexivity |].
  simpl. destruct (IH (step p o)) as [B W].
  destruct (step_base_was_int p o) as [B' W'].
  rewrite B, W, B', W'. split; reflexivity.
Qed.

(** X4.  The base given to [number_parser_init] is never changed, and the flag
    [was_int] is never set: not by any operation, not by
    [number_parser_end], and in particular not when an integer that has
    grown too large is converted to floating-point. *)
Theorem base_fixed_and_was_int_never_set (b : Z) (ops : list op) :
  let p := run ops (number_parser_init b) in
  base p = b /\ was_int p = false /\
  base (snd (number_parser_end p)) = b /\
  was_int (snd (number_parser_end p)) = false.
Proof.
  intros p. subst p.
  destruct (run_base_was_int ops (number_parser_init b)) as [B W].
  destruct (end_frame (run ops (number_parser_init b)))
    as (_ & _ & _ & B' & _ & _ & W').
  rewrite B', W', B, W. repeat split.
Qed.

(** ** The order of the calls *)

(** [number_parser_add_digit] by cases, along the tests the function
    makes: the cap, the kind, room for one more digit, room for this
    digit. *)
Lemma add_digit_eq (p : number_parser) (d : Z) :
  number_parser_add_digit p d
  = if int_len p >=? MAX_LEN then p
    else
      let next x := B64.add (B64.mul x (B64.of_Z (base p))) (B64.of_Z d) in
      let len := s16 (int_len p + 1) in
      if is_float p then set_int_len len (set_fval (next (fval p)) p)
      else if uval p >? MAX_INT / base p then
        set_int_len len
          (set_fval (next (B64.of_bits (B64.to_bits (B64.of_Z (uval p)))))
             (set_is_float true p))
      else if u64 (uval p * base p) >? u64 (MAX_INT - d) then
        set_int_len len
          (set_fval
             (B64.add
                (B64.of_bits (B64.to_bits (B64.of_Z (u64 (uval p * base p)))))
                (B64.of_Z d))
             (set_is_float true p))
      else set_int_len len (set_word (u64 (u64 (uval p * base p) + d)) p).
Proof.
  destruct p. unfold number_parser_add_digit. simpl.
  destruct (int_len0 >=? MAX_LEN); [reflexivity |].
  destruct is_float0; simpl; [reflexivity |].
  unfold convert_to_float. simpl.
  destruct (word0 >? MAX_INT / base0); simpl; [reflexivity |].
  unfold uval, set_uval, set_word. simpl.
  destruct (u64 (word0 * base0) >? u64 (MAX_INT - d)); reflexivity.
Qed.

Ltac digit_cases :=
  rewrite !add_digit_eq; simpl; split_tests; reflexivity.

(** [number_parser_add_digit] reads and writes neither the exponent
    fields nor the signs. *)
Lemma add_digit_set_exp_val (p : number_parser) (d v : Z) :
  number_parser_add_digit (set_exp_val v p) d
  = set_exp_val v (number_parser_add_digit p d).
Proof. destruct p. digit_cases. Qed.

Lemma add_digit_set_has_exp (p : number_parser) (d : Z) (v : bool) :
  number_parser_add_digit (set_has_exp v p) d
  = set_has_exp v (number_parser_add_digit p d).
Proof. destruct p. digit_cases. Qed.

Lemma add_digit_set_sign (p : number_parser) (d : Z) (v : bool) :
  number_parser_add_digit (set_sign v p) d
  = set_sign v (number_parser_add_digit p d).
Proof. destruct p. digit_cases. Qed.

Lemma add_digit_set_exp_sign (p : number_parser) (d : Z) (v : bool) :
  number_parser_add_digit (set_exp_sign v p) d
  = set_exp_sign v (number_parser_add_digit p d).
Proof. destruct p. digit_cases. Qed.

Lemma add_digit_add_exp_digit (p : number_parser) (d e : Z) :
  number_parser_add_exp_digit (number_parser_add_digit p d) e
  = number_parser_add_digit (number_parser_add_exp_digit p e) d.
Proof.
  unfold number_parser_add_exp_digit.
  destruct (add_digit_frame p d) as (_ & E & B & _).
  rewrite E, B.
  destruct (exp_val p <? MAX_EXP); [| reflexivity].
  cbv zeta. rewrite add_digit_set_has_exp, add_digit_set_exp_val.
  destruct (number_parser_add_digit p d). reflexivity.
Qed.

Lemma set_rad_point_add_exp_digit (p : number_parser) (e : Z) :
  number_parser_add_exp_digit (number_parser_set_rad_point p) e
  = number_parser_set_rad_point (number_parser_add_exp_digit p e).
Proof.
  destruct p. unfold number_parser_add_exp_digit, number_parser_set_rad_point.
  simpl. destruct (exp_val0 <? MAX_EXP); reflexivity.
Qed.

Lemma set_sign_add_exp_digit (p : number_parser) (e : Z) (v : bool) :
  number_parser_add_exp_digit (set_sign v p) e
  = set_sign v (number_parser_add_exp_digit p e).
Proof.
  destruct p. unfold number_parser_add_exp_digit. simpl.
  destruct (exp_val0 <? MAX_EXP); reflexivity.
Qed.

Lemma set_exp_sign_add_exp_digit (p : number_parser) (e : Z) (v : bool) :
  number_parser_add_exp_digit (set_exp_sign v p) e
  = set_exp_sign v (number_parser_add_exp_digit p e).
Proof.
  destruct p. unfold number_parser_add_exp_digit. simpl.
  destruct (exp_val0 <? MAX_EXP); reflexivity.
Qed.

(** Two operations of different groups can be exchanged. *)
Lemma step_commute (p : number_parser) (o1 o2 : op) :
  class_of o1 <> class_of o2 ->
  step (step p o2) o1 = step (step p o1) o2.
Proof.
  intros H.
  destruct o1 as [d1 | e1 | | n1 | n1], o2 as [d2 | e2 | | n2 | n2];
    simpl in H; try (contradiction H; reflexivity); simpl;
    unfold number_parser_set_neg, number_parser_set_exp_neg;
    rewrite ?add_digit_add_exp_digit, ?add_digit_set_sign,
      ?add_digit_set_exp_sign, ?set_rad_point_add_exp_digit,
      ?set_sign_add_exp_digit, ?set_exp_sign_add_exp_digit;
    try reflexivity.
Qed.

Lemma run_commute_past (o : op) (l r : list op) (p : number_parser) :
  Forall (fun x => class_of x <> class_of o) l ->
  run (o :: l ++ r) p = run (l ++ o :: r) p.
Proof.
  intros H. revert p.
  induction H as [| x l Hx _ IH]; intros p; [reflexivity |].
  change (run (o :: (x :: l) ++ r) p) with (run (l ++ r) (step (step p o) x)).
  rewrite (step_commute p x o Hx).
  change (run ((x :: l) ++ o :: r) p) with (run (l ++ o :: r) (step p x)).
  rewrite <- IH. reflexivity.
Qed.

Lemma select_class (c : op_class) (ops : list op) :
  Forall (fun x => class_of x = c) (select c ops).
Proof.
  apply Forall_forall. intros x Hx. apply filter_In in Hx.
  destruct Hx as [_ Hx]. destruct (class_of x), c; try discriminate Hx;
    reflexivity.
Qed.

Lemma select_other (c : op_class) (o : op) (ops : list op) :
  class_of o <> c ->
  Forall (fun x => class_of x <> class_of o) (select c ops).
Proof.
  intros H. pose proof (select_class c ops) as Hc.
  apply Forall_forall. intros x Hx.
  rewrite Forall_forall in Hc. rewrite (Hc x Hx).
  intros E. apply H. symmetry. exact E.
Qed.

Lemma select_cons (c : op_class) (o : op) (ops : list op) :
  select c (o :: ops)
  = if class_eqb (class_of o) c then o :: select c ops else select c ops.
Proof. reflexivity. Qed.

(** The operations regrouped: mantissa stream first, then the exponent
    digits, then the sign calls, then the exponent-sign calls. *)
Lemma run_regrouped (ops : list op) (p : number_parser) :
  run ops p
  = run (select Mantissa ops ++ select Exponent ops
         ++ select Sign ops ++ select ExpSign ops) p.
Proof.
  revert p. induction ops as [| o ops IH]; intros p; [reflexivity |].
  change (run (o :: ops) p) with (run ops (step p o)). rewrite IH.
  rewrite !select_cons.
  set (m := select Mantissa ops). set (e := select Exponent ops).
  set (s := select Sign ops). set (x := select ExpSign ops).
  change (run (m ++ e ++ s ++ x) (step p o))
    with (run (o :: m ++ e ++ s ++ x) p).
  assert (Hm : class_of o <> Mantissa ->
               Forall (fun y => class_of y <> class_of o) m)
    by (apply select_other).
  assert (He : class_of o <> Exponent ->
               Forall (fun y => class_of y <> class_of o) e)
    by (apply select_other).
  assert (Hs : class_of o <> Sign ->
               Forall (fun y => class_of y <> class_of o) s)
    by (apply select_other).
  destruct o as [d | d | | n | n]; cbn [class_of class_eqb] in *.
  - reflexivity.
  - apply run_commute_past, Hm. discriminate.
  - reflexivity.
  - rewrite <- app_comm_cons.
    rewrite (app_assoc m e (s ++ x)), (app_assoc m e (_ :: _)).
    apply run_commute_past, Forall_app.
    split; [apply Hm | apply He]; discriminate.
  - rewrite (app_assoc e s x), (app_assoc m (e ++ s) x).
    rewrite (app_assoc e s (_ :: _)), (app_assoc m (e ++ s) (_ :: _)).
    apply run_commute_past. repeat (apply Forall_app; split).
    + apply Hm. discriminate.
    + apply He. discriminate.
    + apply Hs. discriminate.
Qed.

(** X5.  The header's remark that the call order does not have to match the
    input except for the digits: two sequences of operations that make
    the same mantissa calls (digits and radix point) in the same order,
    the same exponent-digit calls in the same order, the same sign calls
    and the same exponent-sign calls leave the parser in the same state,
    however the four groups are interleaved; so [number_parser_end]
    gives the same result. *)
Theorem call_order_between_groups_is_free
  (ops1 ops2 : list op) (p : number_parser) :
  (forall c, select c ops1 = select c ops2) ->
  run ops1 p = run ops2 p /\
  number_parser_end (run ops1 p) = number_parser_end (run ops2 p).
Proof.
  intros H.
  assert (E : run ops1 p = run ops2 p).
  { rewrite (run_regrouped ops1), (run_regrouped ops2), !H. reflexivity. }
  split; [exact E | rewrite E; reflexivity].
Qed.

Lemma call_order_between_groups_is_free_header :
  let ops1 := [AddExpDigit 4; AddDigit 1; AddDigit 2; SetRadPoint;
               AddDigit 3; SetNeg 1] in
  let ops2 := [SetNeg 1; AddDigit 1; AddDigit 2; SetRadPoint; AddDigit 3;
               AddExpDigit 4] in
  (forall c, select c ops1 = select c ops2) /\
  run ops1 (number_parser_init 10) = run ops2 (number_parser_init 10) /\
  number_parser_end (run ops1 (number_parser_init 10))
  = number_parser_end (run ops2 (number_parser_init 10)).
Proof.
  intros ops1 ops2.
  assert (H : forall c, select c ops1 = select c ops2)
    by (intros c; destruct c; reflexivity).
  split; [exact H |].
  exact (call_order_between_groups_is_free ops1 ops2 (number_parser_init 10) H).
Defined.

(** ** Which numbers stay integers *)

(** Digits whose value exceeds 2^63 leave the parser floating-point. *)
Lemma add_digits_overflow (b : Z) (ds : list Z) :
  valid_base b ->
  Forall (valid_digit b) ds ->
  Z.of_nat (length ds) <= MAX_LEN ->
  MAX_INT < digits_value b ds ->
  is_float (add_digits ds (number_parser_init b)) = true.
Proof.
  intros Hb.
  induction ds as [| d ds IH] using rev_ind; intros Hds Hl Hv.
  - unfold digits_value, MAX_INT in Hv. simpl in Hv. lia.
  - apply Forall_app in Hds. destruct Hds as [Hds Hd].
    apply Forall_inv in Hd. unfold valid_digit in Hd.
    unfold valid_base in Hb.
    rewrite length_app in Hl. simpl in Hl.
    rewrite digits_value_snoc in Hv. rewrite add_digits_snoc.
    pose proof (digits_value_nonneg b ltac:(lia) ds Hds) as Hn.
    destruct (Z_le_gt_dec (digits_value b ds) MAX_INT) as [Hle | Hgt].
    + rewrite add_digits_exact;
        [| unfold valid_base; lia | exact Hds | lia | exact Hle].
      apply add_digit_promotes; unfold uval; simpl; try lia; reflexivity.
    + apply add_digit_float_stays, IH; [exact Hds | lia | lia].
Qed.

Lemma end_of_integer_value (b m n negative : Z) :
  0 <= m <= MAX_INT ->
  fst (number_parser_end
         (number_parser_set_neg
            (set_int_len n (set_word m (number_parser_init b))) negative))
  = if (negative =? 0) && (m >? MAX_POS_INT) then 1 else 0.
Proof.
  intros Hm. rewrite end_returns_kind, end_is_float. unfold end_promotes.
  unfold number_parser_set_neg, uval. simpl.
  destruct (negative =? 0); simpl; [| reflexivity].
  rewrite !orb_false_r. destruct (m >? MAX_POS_INT); reflexivity.
Qed.

(** X6.  For digits of the base within the cap, with no radix point and no
    exponent, [number_parser_end] returns 0 (integer) exactly when the
    value with its sign lies in [-2^63, 2^63 - 1], and 1 (floating-point)
    otherwise. *)
Theorem integer_kind_iff_value_fits (b : Z) (ds : list Z) (negative : Z) :
  valid_base b ->
  Forall (valid_digit b) ds ->
  Z.of_nat (length ds) <= MAX_LEN ->
  let v := if negative =? 0 then digits_value b ds
           else - digits_value b ds in
  let r := number_parser_end
             (number_parser_set_neg
                (add_digits ds (number_parser_init b)) negative) in
  (fst r = 0 <-> - 2 ^ 63 <= v <= 2 ^ 63 - 1) /\
  (fst r = 1 <-> ~ (- 2 ^ 63 <= v <= 2 ^ 63 - 1)).
Proof.
  intros Hb Hds Hl v r.
  assert (Hb1 : 1 <= b) by (unfold valid_base in Hb; lia).
  pose proof (digits_value_nonneg b Hb1 ds Hds) as Hn.
  destruct (Z_le_gt_dec (digits_value b ds) MAX_INT) as [Hle | Hgt].
  - assert (E : fst r = if (negative =? 0) && (digits_value b ds >? MAX_POS_INT)
                        then 1 else 0).
    { subst r. rewrite add_digits_exact by assumption.
      apply end_of_integer_value. lia. }
    rewrite E. subst v. unfold MAX_POS_INT, MAX_INT in *.
    destruct (negative =? 0); simpl;
      [destruct (Z.gtb_spec (digits_value b ds) (2 ^ 63 - 1)) |]; lia.
  - assert (E : fst r = 1).
    { subst r. rewrite end_returns_kind, end_is_float.
      unfold number_parser_set_neg. simpl.
      rewrite add_digits_overflow by (assumption || lia). reflexivity. }
    rewrite E. subst v. unfold MAX_INT in *.
    destruct (negative =? 0); lia.
Qed.

Lemma integer_kind_iff_value_fits_nines :
  valid_base 10 /\
  Forall (valid_digit 10) (repeat 9 19) /\
  Z.of_nat (length (repeat 9 19)) <= MAX_LEN /\
  let r := number_parser_end
             (number_parser_set_neg
                (add_digits (repeat 9 19) (number_parser_init 10)) 0) in
  (fst r = 0 <-> - 2 ^ 63 <= 9999999999999999999 <= 2 ^ 63 - 1) /\
  (fst r = 1 <-> ~ (- 2 ^ 63 <= 9999999999999999999 <= 2 ^ 63 - 1)).
Proof.
  assert (Hb : valid_base 10) by (unfold valid_base; lia).
  assert (Hds : Forall (valid_digit 10) (repeat 9 19)).
  { apply Forall_forall. intros d Hd. apply repeat_spec in Hd. subst d.
    unfold valid_digit. lia. }
  assert (Hl : Z.of_nat (length (repeat 9 19)) <= MAX_LEN)
    by (vm_compute; intros E; discriminate E).
  split; [exact Hb |]. split; [exact Hds |]. split; [exact Hl |].
  exact (integer_kind_iff_value_fits 10 (repeat 9 19) 0 Hb Hds Hl).
Defined.

(** ** The signs *)

Lemma step_sign_kept (p : number_parser) (o : op) :
  class_of o <> Sign -> sign (step p o) = sign p.
Proof.
  intros H. destruct o as [d | d | | n | n]; simpl; try reflexivity.
  - apply (add_digit_frame p d).
  - apply (add_exp_digit_frame p d).
  - contradiction H. reflexivity.
Qed.

Lemma step_exp_sign_kept (p : number_parser) (o : op) :
  class_of o <> ExpSign -> exp_sign (step p o) = exp_sign p.
Proof.
  intros H. destruct o as [d | d | | n | n]; simpl; try reflexivity.
  - apply (add_digit_frame p d).
  - apply (add_exp_digit_frame p d).
  - contradiction H. reflexivity.
Qed.

Lemma run_sign_kept (ops : list op) (p : number_parser) :
  Forall (fun o => class_of o <> Sign) ops -> sign (run ops p) = sign p.
Proof.
  intros H. revert p. induction H as [| o ops Ho _ IH]; intros p;
    [reflexivity |].
  simpl. rewrite IH. apply step_sign_kept, Ho.
Qed.

Lemma run_exp_sign_kept (ops : list op) (p : number_parser) :
  Forall (fun o => class_of o <> ExpSign) ops ->
  exp_sign (run ops p) = exp_sign p.
Proof.
  intros H. revert p. induction H as [| o ops Ho _ IH]; intros p;
    [reflexivity |].
  simpl. rewrite IH. apply step_exp_sign_kept, Ho.
Qed.

(** X7.  The sign of the number is the one given by the last
    [number_parser_set_neg] call, negative for every argument other than
    0, whatever was called before and whatever other operations follow;
    without such a call it is as it was.  The same holds for the sign of
    the exponent and [number_parser_set_exp_neg]. *)
Theorem last_sign_call_wins
  (before after : list op) (n : Z) (p : number_parser) :
  (Forall (fun o => class_of o <> Sign) after ->
   sign (run (before ++ SetNeg n :: after) p) = negb (n =? 0) /\
   sign (run after p) = sign p) /\
  (Forall (fun o => class_of o <> ExpSign) after ->
   exp_sign (run (before ++ SetExpNeg n :: after) p) = negb (n =? 0) /\
   exp_sign (run after p) = exp_sign p).
Proof.
  split; intros H.
  - split; [| apply run_sign_kept, H].
    rewrite run_app. simpl. rewrite run_sign_kept by exact H. reflexivity.
  - split; [| apply run_exp_sign_kept, H].
    rewrite run_app. simpl. rewrite run_exp_sign_kept by exact H.
    reflexivity.
Qed.

Lemma last_sign_call_wins_small :
  let before := [SetNeg 0; AddDigit 4; SetExpNeg 0] in
  let after := [AddDigit 2; AddExpDigit 1] in
  let p := number_parser_init 10 in
  (Forall (fun o => class_of o <> Sign) after ->
   sign (run (before ++ SetNeg 7 :: after) p) = true /\
   sign (run after p) = false) /\
  (Forall (fun o => class_of o <> ExpSign) after ->
   exp_sign (run (before ++ SetExpNeg 7 :: after) p) = true /\
   exp_sign (run after p) = false).
Proof.
  exact (last_sign_call_wins [SetNeg 0; AddDigit 4; SetExpNeg 0]
           [AddDigit 2; AddExpDigit 1] 7 (number_parser_init 10)).
Defined.

(** ** The exponent value *)

Lemma add_exp_digits_snoc (es : list Z) (d : Z) (p : number_parser) :
  add_exp_digits (es ++ [d]) p
  = number_parser_add_exp_digit (add_exp_digits es p) d.
Proof. unfold add_exp_digits. rewrite fold_left_app. reflexivity. Qed.

Lemma add_exp_digits_base (es : list Z) (p : number_parser) :
  base (add_exp_digits es p) = base p.
Proof.
  induction es as [| d es IH] using rev_ind; [reflexivity |].
  rewrite add_exp_digits_snoc.
  destruct (add_exp_digit_frame (add_exp_digits es p) d) as (_ & _ & B & _).
  rewrite B. exact IH.
Qed.

(** Below the ceiling, in a base of at most 106, one more exponent digit
    fits the [int16_t]: 307 * 106 + 105 is less than 2^15. *)
Lemma add_exp_digit_small_base (p : number_parser) (d : Z) :
  2 <= base p <= 106 ->
  0 <= d < base p ->
  0 <= exp_val p < MAX_EXP ->
  exp_val (number_parser_add_exp_digit p d) = exp_val p * base p + d.
Proof.
  intros Hb Hd He. unfold number_parser_add_exp_digit.
  destruct (Z.ltb_spec (exp_val p) MAX_EXP); [| lia].
  unfold MAX_EXP, DBL_MIN_10_EXP in *.
  simpl. apply s16_small. nia.
Qed.

Lemma removelast_prefix (b : Z) (es : list Z) :
  1 <= b -> Forall (valid_digit b) es ->
  digits_value b (removelast es) <= digits_value b es.
Proof.
  intros Hb Hes. rewrite removelast_firstn_len.
  apply digits_value_prefix; assumption.
Qed.

(** X8.  In a base of at most 106, exponent digits are accumulated exactly as
    long as the value of the digits before the last one is below the
    ceiling: [exp_val] is then the value of the exponent digits. *)
Theorem exponent_exact_below_ceiling
  (b : Z) (es : list Z) (p : number_parser) :
  2 <= b <= 106 ->
  Forall (valid_digit b) es ->
  base p = b ->
  exp_val p = 0 ->
  digits_value b (removelast es) < MAX_EXP ->
  exp_val (add_exp_digits es p) = digits_value b es.
Proof.
  intros Hb Hes Hp H0.
  induction es as [| d es IH] using rev_ind; intros Hv; [exact H0 |].
  apply Forall_app in Hes. destruct Hes as [Hes Hd].
  apply Forall_inv in Hd. unfold valid_digit in Hd.
  rewrite removelast_last in Hv.
  pose proof (removelast_prefix b es ltac:(lia) Hes) as Hpre.
  pose proof (digits_value_nonneg b ltac:(lia) es Hes) as Hn.
  specialize (IH Hes ltac:(lia)).
  rewrite add_exp_digits_snoc, digits_value_snoc.
  rewrite add_exp_digit_small_base; rewrite ?add_exp_digits_base, ?IH, ?Hp;
    lia.
Qed.

Lemma exponent_exact_below_ceiling_307 :
  2 <= 10 <= 106 /\
  Forall (valid_digit 10) [3; 0; 7] /\
  base (number_parser_init 10) = 10 /\
  exp_val (number_parser_init 10) = 0 /\
  digits_value 10 (removelast [3; 0; 7]) < MAX_EXP /\
  exp_val (add_exp_digits [3; 0; 7] (number_parser_init 10)) = 307.
Proof.
  assert (Hb : 2 <= 10 <= 106) by lia.
  assert (Hes : Forall (valid_digit 10) [3; 0; 7])
    by (repeat constructor; unfold valid_digit; lia).
  assert (Hv : digits_value 10 (removelast [3; 0; 7]) < MAX_EXP)
    by (vm_compute; reflexivity).
  split; [exact Hb |]. split; [exact Hes |]. split; [reflexivity |].
  split; [reflexivity |]. split; [exact Hv |].
  exact (exponent_exact_below_ceiling 10 [3; 0; 7] (number_parser_init 10)
           Hb Hes eq_refl eq_refl Hv).
Defined.

Lemma step_exp_val_small_base (b : Z) (p : number_parser) (o : op) :
  2 <= b <= 106 ->
  (forall d, o = AddExpDigit d -> valid_digit b d) ->
  base p = b ->
  0 <= exp_val p <= 307 * b + (b - 1) ->
  0 <= exp_val (step p o) <= 307 * b + (b - 1).
Proof.
  intros Hb Ho Hp He. destruct o as [d | d | | n | n]; simpl;
    try exact He.
  - destruct (add_digit_frame p d) as (_ & E & _). rewrite E. exact He.
  - specialize (Ho d eq_refl). unfold valid_digit in Ho.
    destruct (Z_lt_ge_dec (exp_val p) MAX_EXP) as [Hlt | Hge].
    + rewrite add_exp_digit_small_base; rewrite ?Hp; try lia.
      unfold MAX_EXP, DBL_MIN_10_EXP in Hlt. nia.
    + unfold number_parser_add_exp_digit.
      destruct (Z.ltb_spec (exp_val p) MAX_EXP); [lia | exact He].
Qed.

(** X9.  In a base of at most 106 with exponent digits of the base, the
    exponent value never leaves the range of its [int16_t]: in every
    state reached from [number_parser_init] it lies between 0 and
    [307 * base + base - 1], which is at most 32647. *)
Theorem exponent_bounded_in_small_base (b : Z) (ops : list op) :
  2 <= b <= 106 ->
  Forall (fun o => forall d, o = AddExpDigit d -> valid_digit b d) ops ->
  0 <= exp_val (run ops (number_parser_init b)) <= 307 * b + (b - 1) /\
  307 * b + (b - 1) <= 32647.
Proof.
  intros Hb Hops. split; [| lia].
  assert (G : forall p, base p = b ->
              0 <= exp_val p <= 307 * b + (b - 1) ->
              0 <= exp_val (run ops p) <= 307 * b + (b - 1)).
  { induction Hops as [| o ops Ho _ IH]; intros p Hp He; [exact He |].
    simpl. apply IH.
    - rewrite (proj1 (step_base_was_int p o)). exact Hp.
    - apply step_exp_val_small_base; assumption. }
  apply G; simpl; [reflexivity | lia].
Qed.

Lemma exponent_bounded_in_small_base_ten :
  let ops := [AddExpDigit 9; AddDigit 1; AddExpDigit 9; AddExpDigit 9;
              AddExpDigit 9] in
  2 <= 10 <= 106 /\
  Forall (fun o => forall d, o = AddExpDigit d -> valid_digit 10 d) ops /\
  0 <= exp_val (run ops (number_parser_init 10)) <= 307 * 10 + (10 - 1) /\
  307 * 10 + (10 - 1) <= 32647.
Proof.
  intros ops.
  assert (Hb : 2 <= 10 <= 106) by lia.
  assert (Hops : Forall (fun o => forall d, o = AddExpDigit d ->
                                  valid_digit 10 d) ops).
  { subst ops.
    repeat (apply Forall_cons;
            [intros d E; inversion E; subst; unfold valid_digit; lia |]).
    apply Forall_nil. }
  split; [exact Hb |]. split; [exact Hops |].
  exact (exponent_bounded_in_small_base 10 ops Hb Hops).
Defined.

Lemma add_exp_digit_at_ceiling (p : number_parser) (d : Z) :
  MAX_EXP <= exp_val p -> number_parser_add_exp_digit p d = p.
Proof.
  intros H. unfold number_parser_add_exp_digit.
  destruct (Z.ltb_spec (exp_val p) MAX_EXP); [lia | reflexivity].
Qed.

Lemma step_exp_val_at_ceiling (p : number_parser) (o : op) :
  MAX_EXP <= exp_val p ->
  exp_val (step p o) = exp_val p /\ has_exp (step p o) = has_exp p.
Proof.
  intros H. destruct o as [d | d | | n | n]; simpl;
    try (split; reflexivity).
  - destruct (add_digit_frame p d) as (_ & E & _ & _ & _ & X & _).
    split; assumption.
  - rewrite add_exp_digit_at_ceiling by exact H. split; reflexivity.
Qed.

(** X10.  Once the exponent value has reached the ceiling, exponent digits are
    dropped: no further sequence of operations changes [exp_val] or
    [has_exp], and a run of exponent digits leaves the whole parser as it
    is.  A longer exponent thus gives the result of its prefix. *)
Theorem exponent_frozen_at_ceiling (p : number_parser) :
  MAX_EXP <= exp_val p ->
  (forall ops, exp_val (run ops p) = exp_val p /\
               has_exp (run ops p) = has_exp p) /\
  (forall es, add_exp_digits es p = p) /\
  (forall es, number_parser_end (add_exp_digits es p) = number_parser_end p).
Proof.
  intros H.
  assert (G : forall es, add_exp_digits es p = p).
  { induction es as [| d es IH]; [reflexivity |].
    unfold add_exp_digits in *. simpl.
    rewrite add_exp_digit_at_ceiling by exact H. exact IH. }
  split; [| split; [exact G | intros es; rewrite G; reflexivity]].
  intros ops. revert p H G. induction ops as [| o ops IH]; intros p H _;
    [split; reflexivity |].
  simpl. destruct (step_exp_val_at_ceiling p o H) as [E X].
  destruct (IH (step p o)) as [E' X'].
  - rewrite E. exact H.
  - intros es. induction es as [| d es IHes]; [reflexivity |].
    unfold add_exp_digits in *. simpl.
    rewrite add_exp_digit_at_ceiling by (rewrite E; exact H). exact IHes.
  - rewrite E', X', E, X. split; reflexivity.
Qed.

Lemma exponent_frozen_at_ceiling_308 :
  let p := run [AddDigit 1; AddExpDigit 3; AddExpDigit 0; AddExpDigit 8]
               (number_parser_init 10) in
  MAX_EXP <= exp_val p /\
  (forall ops, exp_val (run ops p) = exp_val p /\
               has_exp (run ops p) = has_exp p) /\
  (forall es, add_exp_digits es p = p) /\
  (forall es, number_parser_end (add_exp_digits es p) = number_parser_end p).
Proof.
  intros p.
  assert (H : MAX_EXP <= exp_val p) by (vm_compute; intros E; discriminate E).
  split; [exact H |].
  exact (exponent_frozen_at_ceiling p H).
Defined.

(** ** The floating-point result *)

(** What [number_parser_end] leaves in the union of a parser that is, or
    becomes, floating-point. *)
Lemma end_float_word (p : number_parser) :
  is_float p || end_promotes p = true ->
  fst (number_parser_end p) = 1 /\
  word (snd (number_parser_end p))
  = float_result (word (convert_to_float p)) (sign p) (base p)
      (effective_exponent p) (end_divides p).
Proof.
  intros H. split.
  { rewrite end_returns_kind, end_is_float, H. reflexivity. }
  unfold float_result, end_divides, effective_exponent.
  unfold end_promotes in H.
  destruct p. unfold number_parser_end, convert_to_float, uval in *.
  simpl in *.
  set (n := (if exp_sign0 then - exp_val0 else exp_val0)
            - (if rad_off0 >=? 0 then int_len0 - rad_off0 else 0)).
  assert (En : (if rad_off0 >=? 0
                then (if exp_sign0 then - exp_val0 else exp_val0)
                     - (int_len0 - rad_off0)
                else if exp_sign0 then - exp_val0 else exp_val0) = n).
  { subst n. destruct (rad_off0 >=? 0); lia. }
  destruct is_float0; simpl in *.
  - destruct ((negb sign0 && (word0 >? MAX_POS_INT)) || has_exp0
              || (rad_off0 >=? 0)); simpl; rewrite En;
      destruct (Z.ltb_spec n 0);
      [rewrite Z.abs_neq by lia | rewrite Z.abs_eq by lia
      | rewrite Z.abs_neq by lia | rewrite Z.abs_eq by lia];
      simpl; rewrite ?orb_true_r, ?orb_false_r;
      destruct sign0, exp_sign0; reflexivity.
  - rewrite H. simpl. rewrite En.
    destruct (Z.ltb_spec n 0);
      [rewrite Z.abs_neq by lia | rewrite Z.abs_eq by lia];
      simpl; rewrite ?orb_true_r, ?orb_false_r;
      destruct sign0, exp_sign0; reflexivity.
Qed.

Lemma add_digit_set_rad_off (p : number_parser) (d v : Z) :
  number_parser_add_digit (set_rad_off v p) d
  = set_rad_off v (number_parser_add_digit p d).
Proof. destruct p. digit_cases. Qed.

Lemma add_digits_set_rad_off (ds : list Z) (p : number_parser) (v : Z) :
  add_digits ds (set_rad_off v p) = set_rad_off v (add_digits ds p).
Proof.
  revert p. induction ds as [| d ds IH]; intros p; [reflexivity |].
  unfold add_digits in *. simpl. rewrite add_digit_set_rad_off. apply IH.
Qed.

Lemma add_digits_app (ds1 ds2 : list Z) (p : number_parser) :
  add_digits (ds1 ++ ds2) p = add_digits ds2 (add_digits ds1 p).
Proof. unfold add_digits. apply fold_left_app. Qed.

Lemma add_digits_int_len (ds : list Z) (p : number_parser) :
  0 <= int_len p <= MAX_LEN ->
  int_len (add_digits ds p)
  = Z.min (int_len p + Z.of_nat (length ds)) MAX_LEN.
Proof.
  revert p. induction ds as [| d ds IH]; intros p H.
  - simpl. lia.
  - unfold add_digits in *. simpl fold_left.
    pose proof (add_digit_int_len p d H) as E.
    rewrite IH by (rewrite E; unfold MAX_LEN in *; lia).
    rewrite E. simpl length. unfold MAX_LEN in *. lia.
Qed.

Lemma add_digits_frame (ds : list Z) (p : number_parser) :
  let q := add_digits ds p in
  rad_off q = rad_off p /\ exp_val q = exp_val p /\ base q = base p /\
  sign q = sign p /\ exp_sign q = exp_sign p /\ has_exp q = has_exp p.
Proof.
  revert p. induction ds as [| d ds IH]; intros p; [repeat split |].
  unfold add_digits in *. simpl.
  destruct (IH (number_parser_add_digit p d)) as (R & E & B & S & X & H).
  destruct (add_digit_frame p d) as (R' & E' & B' & S' & X' & H' & _).
  rewrite R, E, B, S, X, H, R', E', B', S', X', H'. repeat split.
Qed.

Lemma add_exp_digits_frame (es : list Z) (p : number_parser) :
  let q := add_exp_digits es p in
  int_len q = int_len p /\ rad_off q = rad_off p /\ base q = base p /\
  sign q = sign p /\ exp_sign q = exp_sign p /\ is_float q = is_float p /\
  word q = word p.
Proof.
  revert p. induction es as [| d es IH]; intros p; [repeat split |].
  unfold add_exp_digits in *. simpl.
  destruct (IH (number_parser_add_exp_digit p d))
    as (L & R & B & S & X & F & W).
  destruct (add_exp_digit_frame p d) as (L' & R' & B' & S' & X' & F' & _ & W').
  rewrite L, R, B, S, X, F, W, L', R', B', S', X', F', W'. repeat split.
Qed.

(** The exponent fields after exponent digits depend on nothing but the
    exponent fields and the base before them. *)
Lemma add_exp_digits_ext (es : list Z) (p q : number_parser) :
  exp_val p = exp_val q -> has_exp p = has_exp q -> base p = base q ->
  exp_val (add_exp_digits es p) = exp_val (add_exp_digits es q) /\
  has_exp (add_exp_digits es p) = has_exp (add_exp_digits es q).
Proof.
  revert p q. induction es as [| d es IH]; intros p q E H B;
    [split; assumption |].
  unfold add_exp_digits in *. simpl. apply IH.
  - unfold number_parser_add_exp_digit. rewrite E, B.
    destruct (exp_val q <? MAX_EXP); [reflexivity | exact E].
  - unfold number_parser_add_exp_digit. rewrite E.
    destruct (exp_val q <? MAX_EXP); [reflexivity | exact H].
  - destruct (add_exp_digit_frame p d) as (_ & _ & Bp & _).
    destruct (add_exp_digit_frame q d) as (_ & _ & Bq & _).
    rewrite Bp, Bq. exact B.
Qed.

Lemma add_exp_digits_has_exp (es : list Z) (p : number_parser) :
  (has_exp p = false -> exp_val p = 0) ->
  has_exp (add_exp_digits es p) = false -> exp_val (add_exp_digits es p) = 0.
Proof.
  revert p. induction es as [| d es IH]; intros p H; [exact H |].
  unfold add_exp_digits in *. simpl. apply IH.
  unfold number_parser_add_exp_digit.
  destruct (exp_val p <? MAX_EXP); [discriminate | exact H].
Qed.

(** X11.  A radix point is an exponent shift.  Digits with a radix point in
    front of the last [k] of them give the same floating-point result as
    the same digits without a radix point and with the negative exponent
    [k], whatever the sign: [number_parser_end] returns 1 for both and
    leaves the same bits in the union. *)
Theorem radix_point_is_exponent_shift
  (b : Z) (ds1 ds2 es : list Z) (negative : Z) :
  Z.of_nat (length (ds1 ++ ds2)) <= MAX_LEN ->
  (0 < length ds2)%nat ->
  exp_val (add_exp_digits es (number_parser_init b))
  = Z.of_nat (length ds2) ->
  let with_point :=
    add_digits ds2
      (number_parser_set_rad_point (add_digits ds1 (number_parser_init b))) in
  let with_exponent :=
    number_parser_set_exp_neg
      (add_exp_digits es (add_digits (ds1 ++ ds2) (number_parser_init b))) 1 in
  let r1 := number_parser_end (number_parser_set_neg with_point negative) in
  let r2 := number_parser_end (number_parser_set_neg with_exponent negative) in
  fst r1 = 1 /\ fst r2 = 1 /\ word (snd r1) = word (snd r2).
Proof.
  intros Hl Hk He A B r1 r2.
  set (p0 := number_parser_init b) in *.
  set (m := add_digits (ds1 ++ ds2) p0) in *.
  rewrite length_app in Hl.
  assert (H0 : 0 <= int_len p0 <= MAX_LEN) by (simpl; unfold MAX_LEN; lia).
  (* the parser with the radix point *)
  assert (EA : A = set_rad_off (Z.of_nat (length ds1)) m).
  { subst A m. unfold number_parser_set_rad_point.
    rewrite add_digits_set_rad_off, add_digits_app.
    rewrite add_digits_int_len by exact H0. simpl int_len.
    f_equal. unfold MAX_LEN in *. lia. }
  assert (Lm : int_len m = Z.of_nat (length ds1) + Z.of_nat (length ds2)).
  { subst m. rewrite add_digits_int_len by exact H0.
    rewrite length_app. simpl int_len. unfold MAX_LEN in *. lia. }
  destruct (add_digits_frame (ds1 ++ ds2) p0) as (Rm & Vm & Bm & Sm & Xm & Hm).
  fold m in Rm, Vm, Bm, Sm, Xm, Hm. simpl in Rm, Vm, Bm, Sm, Xm, Hm.
  (* the parser with the exponent *)
  destruct (add_exp_digits_frame es m) as (Lb & Rb & Bb & Sb & Xb & Fb & Wb).
  destruct (add_exp_digits_ext es m p0) as [Vb Hb];
    [exact Vm | exact Hm | exact Bm |].
  assert (Hx : has_exp (add_exp_digits es m) = true).
  { pose proof (add_exp_digits_has_exp es p0 (fun _ => eq_refl)) as Hz.
    rewrite <- Hb in Hz.
    destruct (has_exp (add_exp_digits es m)); [reflexivity |].
    specialize (Hz eq_refl). lia. }
  subst r1 r2.
  assert (PA : is_float (number_parser_set_neg A negative)
               || end_promotes (number_parser_set_neg A negative) = true).
  { unfold end_promotes. rewrite EA. simpl.
    destruct (Z.geb_spec (Z.of_nat (length ds1)) 0); [| lia].
    rewrite !orb_true_r. reflexivity. }
  assert (PB : is_float (number_parser_set_neg B negative)
               || end_promotes (number_parser_set_neg B negative) = true).
  { unfold end_promotes. subst B. simpl. rewrite Hx.
    rewrite orb_true_r. simpl. rewrite orb_true_r. reflexivity. }
  destruct (end_float_word _ PA) as [K1 W1].
  destruct (end_float_word _ PB) as [K2 W2].
  split; [exact K1 |]. split; [exact K2 |].
  rewrite W1, W2. subst B. rewrite EA.
  unfold end_divides, effective_exponent, convert_to_float. simpl.
  rewrite ?Lb, ?Rb, ?Bb, ?Fb, ?Wb, ?Vb, ?Xb, ?Rm, ?Lm, ?Xm, ?Vm.
  fold p0. rewrite He.
  destruct (Z.geb_spec (Z.of_nat (length ds1)) 0); [| lia]. simpl.
  replace (0 - (Z.of_nat (length ds1) + Z.of_nat (length ds2)
                - Z.of_nat (length ds1)))
    with (- Z.of_nat (length ds2)) by lia.
  replace (- Z.of_nat (length ds2) - 0) with (- Z.of_nat (length ds2)) by lia.
  destruct (Z.ltb_spec (- Z.of_nat (length ds2)) 0); [| lia].
  destruct (is_float m); simpl; rewrite ?Wb; reflexivity.
Qed.

Lemma radix_point_is_exponent_shift_12_3 :
  Z.of_nat (length ([1; 2] ++ [3])) <= MAX_LEN /\
  (0 < length [3])%nat /\
  exp_val (add_exp_digits [1] (number_parser_init 10))
  = Z.of_nat (length [3]) /\
  let with_point :=
    add_digits [3]
      (number_parser_set_rad_point
         (add_digits [1; 2] (number_parser_init 10))) in
  let with_exponent :=
    number_parser_set_exp_neg
      (add_exp_digits [1]
         (add_digits ([1; 2] ++ [3]) (number_parser_init 10))) 1 in
  let r1 := number_parser_end (number_parser_set_neg with_point 1) in
  let r2 := number_parser_end (number_parser_set_neg with_exponent 1) in
  fst r1 = 1 /\ fst r2 = 1 /\ word (snd r1) = word (snd r2).
Proof.
  assert (Hl : Z.of_nat (length ([1; 2] ++ [3])) <= MAX_LEN)
    by (vm_compute; intros E; discriminate E).
  assert (Hk : (0 < length [3])%nat) by (simpl; lia).
  assert (He : exp_val (add_exp_digits [1] (number_parser_init 10))
               = Z.of_nat (length [3])) by reflexivity.
  split; [exact Hl |]. split; [exact Hk |]. split; [exact He |].
  exact (radix_point_is_exponent_shift 10 [1; 2] [3] [1] 1 Hl Hk He).
Defined.

(** ** Bit patterns of doubles *)


Lemma encodable_neg (x : double) : encodable x -> encodable (B64.neg x).
Proof. destruct x; simpl; intros H; exact H. Qed.

(** Writing an encodable double into the union and reading it back gives
    the double. *)
Lemma of_bits_to_bits (x : double) :
  encodable x -> B64.of_bits (B64.to_bits x) = x.
Proof.
  destruct x as [s | s | | s m e]; try (intros _; destruct s; reflexivity);
    [intros _; reflexivity |].
  simpl. intros H. unfold B64.to_bits, B64.of_bits. cbv zeta.
  set (w := B64.sign_bit s + (e + 1074) * 2 ^ 52 + Z.pos m).
  assert (Hs : 0 <= B64.sign_bit s /\ (B64.sign_bit s = if s then 2 ^ 63 else 0))
    by (destruct s; simpl; split; lia || reflexivity).
  destruct Hs as [Hs0 Hs].
  assert (Hr : 0 <= (e + 1074) * 2 ^ 52 + Z.pos m < 2 ^ 63) by lia.
  assert (Hsign : (2 ^ 63 <=? w mod 2 ^ 64) = s).
  { subst w. rewrite Hs. rewrite Z.mod_small by (destruct s; lia).
    destruct s; [apply Z.leb_le | apply Z.leb_gt]; lia. }
  rewrite Hsign.
  destruct H as [[He Hm] | [Hm He]].
  - assert (Hex : (w / 2 ^ 52) mod 2 ^ 11 = 0).
    { subst w e. destruct s; rewrite Hs.
      - replace (2 ^ 63 + (-1074 + 1074) * 2 ^ 52 + Z.pos m)
          with (Z.pos m + 2 ^ 11 * 2 ^ 52) by lia.
        rewrite Z.div_add by lia. rewrite Z.div_small by lia. reflexivity.
      - replace (0 + (-1074 + 1074) * 2 ^ 52 + Z.pos m) with (Z.pos m) by lia.
        rewrite Z.div_small by lia. reflexivity. }
    assert (Hfr : w mod 2 ^ 52 = Z.pos m).
    { subst w e.
      replace (B64.sign_bit s + (-1074 + 1074) * 2 ^ 52 + Z.pos m)
        with (Z.pos m + (if s then 2 ^ 11 else 0) * 2 ^ 52)
        by (rewrite Hs; destruct s; lia).
      rewrite Z.mod_add by lia. apply Z.mod_small. lia. }
    rewrite Hex, Hfr. simpl. subst e. reflexivity.
  - assert (Hw : w = (Z.pos m - 2 ^ 52)
                     + ((if s then 2 ^ 11 else 0) + (e + 1075)) * 2 ^ 52)
      by (subst w; rewrite Hs; destruct s; lia).
    assert (Hex : (w / 2 ^ 52) mod 2 ^ 11 = e + 1075).
    { rewrite Hw, Z.div_add by lia. rewrite Z.div_small by lia.
      destruct s.
      - replace (0 + (2 ^ 11 + (e + 1075))) with (e + 1075 + 1 * 2 ^ 11) by lia.
        rewrite Z.mod_add by lia. apply Z.mod_small. lia.
      - apply Z.mod_small. lia. }
    assert (Hfr : w mod 2 ^ 52 = Z.pos m - 2 ^ 52).
    { rewrite Hw, Z.mod_add by lia. apply Z.mod_small. lia. }
    rewrite Hex, Hfr.
    destruct (Z.eqb_spec (e + 1075) 0); [lia |].
    destruct (Z.eqb_spec (e + 1075) 2047); [lia |].
    replace (Z.pos m - 2 ^ 52 + 2 ^ 52) with (Z.pos m) by lia.
    replace (e + 1075 - 1075) with e by lia. reflexivity.
Qed.







(** ** Exact arithmetic on small integers *)

Lemma digits2_pos_bounds (m : positive) :
  2 ^ (Zpos (digits2_pos m) - 1) <= Zpos m < 2 ^ Zpos (digits2_pos m).
Proof.
  induction m as [m IH | m IH |]; simpl digits2_pos.
  - rewrite Pos2Z.inj_succ.
    replace (Z.succ (Zpos (digits2_pos m)) - 1)
      with (Z.succ (Zpos (digits2_pos m) - 1)) by lia.
    rewrite !Z.pow_succ_r by lia. lia.
  - rewrite Pos2Z.inj_succ.
    replace (Z.succ (Zpos (digits2_pos m)) - 1)
      with (Z.succ (Zpos (digits2_pos m) - 1)) by lia.
    rewrite !Z.pow_succ_r by lia. lia.
  - simpl. lia.
Qed.

Lemma digits2_pos_unique (m : positive) (k : Z) :
  2 ^ (k - 1) <= Zpos m < 2 ^ k -> Zpos (digits2_pos m) = k.
Proof.
  intros H. pose proof (digits2_pos_bounds m) as B.
  assert (Hk : 0 < k).
  { destruct (Z_lt_le_dec 0 k) as [Hk | Hk]; [exact Hk |].
    assert (2 ^ k <= 2 ^ 0) by (apply Z.pow_le_mono_r; lia). simpl in *. lia. }
  destruct (Z_lt_le_dec (Zpos (digits2_pos m)) k) as [H1 | H1].
  - assert (2 ^ Zpos (digits2_pos m) <= 2 ^ (k - 1))
      by (apply Z.pow_le_mono_r; lia). lia.
  - destruct (Z_lt_le_dec k (Zpos (digits2_pos m))) as [H2 | H2]; [| lia].
    assert (2 ^ k <= 2 ^ (Zpos (digits2_pos m) - 1))
      by (apply Z.pow_le_mono_r; lia). lia.
Qed.

Lemma iter_pos_nat {A : Type} (f : A -> A) (n : positive) (x : A) :
  iter_pos f n x = Nat.iter (Pos.to_nat n) f x.
Proof.
  revert x. induction n as [n IH | n IH |]; intros x; simpl iter_pos.
  - rewrite !IH, Pos2Nat.inj_xI, <- Nat.iter_add.
    replace (S (2 * Pos.to_nat n))%nat
      with (Pos.to_nat n + Pos.to_nat n + 1)%nat by lia.
    rewrite (Nat.iter_add (Pos.to_nat n + Pos.to_nat n) 1). reflexivity.
  - rewrite !IH, Pos2Nat.inj_xO, <- Nat.iter_add.
    replace (2 * Pos.to_nat n)%nat with (Pos.to_nat n + Pos.to_nat n)%nat by lia.
    reflexivity.
  - reflexivity.
Qed.

Lemma shiftl_nat_value (m : positive) (k : nat) :
  Zpos (Pos.shiftl_nat m k) = Zpos m * 2 ^ Z.of_nat k.
Proof.
  induction k as [| k IH].
  - simpl. lia.
  - change (Pos.shiftl_nat m (S k)) with (xO (Pos.shiftl_nat m k)).
    rewrite Pos2Z.inj_xO, IH, Nat2Z.inj_succ, Z.pow_succ_r by lia. lia.
Qed.

Lemma shr_nat_exact (k : nat) (m : positive) :
  Nat.iter k shr_1 (Build_shr_record (Zpos (Pos.shiftl_nat m k)) false false)
  = Build_shr_record (Zpos m) false false.
Proof.
  induction k as [| k IH]; [reflexivity |].
  rewrite Nat.iter_succ_r.
  change (Pos.shiftl_nat m (S k)) with (xO (Pos.shiftl_nat m k)).
  exact IH.
Qed.

(** Rounding a 53-bit mantissa followed by [k] zero bits drops the zero
    bits and rounds nothing off. *)
Lemma binary_round_aux_exact (s : bool) (m : positive) (k : nat) (e : Z) :
  2 ^ 52 <= Zpos m < 2 ^ 53 ->
  -1074 <= e + Z.of_nat k <= 971 ->
  binary_round_aux B64.prec B64.emax s (Zpos (Pos.shiftl_nat m k)) e loc_Exact
  = S754_finite s m (e + Z.of_nat k).
Proof.
  intros Hm He.
  assert (Dm : Zpos (digits2_pos m) = 53) by (apply digits2_pos_unique; lia).
  assert (Dp : Zpos (digits2_pos (Pos.shiftl_nat m k)) = 53 + Z.of_nat k).
  { apply digits2_pos_unique. rewrite shiftl_nat_value.
    replace (53 + Z.of_nat k - 1) with (52 + Z.of_nat k) by lia.
    rewrite !Z.pow_add_r by lia.
    assert (0 < 2 ^ Z.of_nat k) by (apply Z.pow_pos_nonneg; lia). nia. }
  unfold binary_round_aux, shr_fexp, fexp, emin, Zdigits2, B64.prec, B64.emax.
  simpl shr_record_of_loc. rewrite Dp.
  replace (Z.max (53 + Z.of_nat k + e - 53) (3 - 1024 - 53) - e)
    with (Z.of_nat k) by lia.
  assert (Hshr : shr {| shr_m := Zpos (Pos.shiftl_nat m k);
                        shr_r := false; shr_s := false |} e (Z.of_nat k)
                 = ({| shr_m := Zpos m; shr_r := false; shr_s := false |},
                    e + Z.of_nat k)).
  { destruct k as [| k].
    - simpl. f_equal. lia.
    - change (Z.of_nat (S k)) with (Zpos (Pos.of_succ_nat k)).
      unfold shr. rewrite iter_pos_nat, SuccNat2Pos.id_succ, shr_nat_exact.
      reflexivity. }
  rewrite Hshr. simpl shr_m. simpl loc_of_shr_record.
  simpl round_nearest_even. simpl shr_record_of_loc. cbv beta iota.
  rewrite Dm.
  replace (Z.max (53 + (e + Z.of_nat k) - 53) (3 - 1024 - 53)
           - (e + Z.of_nat k)) with 0 by lia.
  simpl shr. cbv beta iota. simpl shr_m. cbv beta iota.
  destruct (Z.leb_spec (e + Z.of_nat k) (1024 - 53)); [reflexivity | lia].
Qed.

Lemma holds_integer_pos (x : double) (a : Z) : holds_integer x a -> 0 < a.
Proof.
  intros (m & s & _ & Hs & Hv & _).
  assert (0 < 2 ^ s) by (apply Z.pow_pos_nonneg; lia). nia.
Qed.

Lemma holds_integer_unique (x y : double) (a : Z) :
  holds_integer x a -> holds_integer y a -> x = y.
Proof.
  intros (m & s & -> & Hs & Hv & Hm) (n & t & -> & Ht & Hw & Hn).
  assert (E : s = t).
  { destruct (Z.lt_trichotomy s t) as [L | [E | L]]; [| exact E |].
    - assert (2 ^ t = 2 ^ s * 2 ^ (t - s))
        by (rewrite <- Z.pow_add_r by lia; f_equal; lia).
      assert (2 <= 2 ^ (t - s))
        by (change 2 with (2 ^ 1) at 1; apply Z.pow_le_mono_r; lia).
      nia.
    - assert (2 ^ s = 2 ^ t * 2 ^ (s - t))
        by (rewrite <- Z.pow_add_r by lia; f_equal; lia).
      assert (2 <= 2 ^ (s - t))
        by (change 2 with (2 ^ 1) at 1; apply Z.pow_le_mono_r; lia).
      nia. }
  subst t. f_equal. apply Pos2Z.inj. lia.
Qed.

(** Every integer from 1 to 2^53 - 1 is converted exactly. *)
Lemma of_Z_holds (a : Z) : 0 < a < 2 ^ 53 -> holds_integer (B64.of_Z a) a.
Proof.
  intros Ha. destruct a as [| a | a]; try lia.
  pose proof (digits2_pos_bounds a) as B.
  set (d := Zpos (digits2_pos a)) in *.
  assert (Hd : 1 <= d <= 53).
  { split; [subst d; lia |].
    destruct (Z_le_gt_dec d 53) as [L | G]; [exact L |].
    assert (2 ^ 53 <= 2 ^ (d - 1)) by (apply Z.pow_le_mono_r; lia). lia. }
  set (k := Z.to_nat (53 - d)).
  assert (Hk : Z.of_nat k = 53 - d) by (subst k; lia).
  exists (Pos.shiftl_nat a k), (53 - d).
  assert (Hv : Zpos (Pos.shiftl_nat a k) = Zpos a * 2 ^ (53 - d))
    by (rewrite shiftl_nat_value, Hk; reflexivity).
  assert (Hm : 2 ^ 52 <= Zpos (Pos.shiftl_nat a k) < 2 ^ 53).
  { rewrite Hv.
    assert (E1 : 2 ^ 52 = 2 ^ (d - 1) * 2 ^ (53 - d))
      by (rewrite <- Z.pow_add_r by lia; f_equal; lia).
    assert (E2 : 2 ^ 53 = 2 ^ d * 2 ^ (53 - d))
      by (rewrite <- Z.pow_add_r by lia; f_equal; lia).
    assert (0 < 2 ^ (53 - d)) by (apply Z.pow_pos_nonneg; lia).
    rewrite E1, E2. nia. }
  split; [| split; [lia | split; [exact Hv | exact Hm]]].
  unfold B64.of_Z, binary_normalize, binary_round.
  assert (Hal : shl_align a 0 (fexp B64.prec B64.emax (Zpos (digits2_pos a) + 0))
                = (Pos.shiftl_nat a k, - (53 - d))).
  { unfold shl_align, fexp, emin, B64.prec, B64.emax. fold d.
    replace (Z.max (d + 0 - 53) (3 - 1024 - 53) - 0) with (d - 53) by lia.
    destruct (Z.eq_dec d 53) as [E | E].
    - assert (Hk0 : k = 0%nat) by lia. rewrite Hk0, E. reflexivity.
    - destruct (d - 53) as [| q | q] eqn:Eq; try lia.
      f_equal; [| lia].
      assert (Hq : k = Pos.to_nat q) by lia.
      rewrite Hq. clear. revert a.
      induction q as [| q IH] using Pos.peano_ind; intros a.
      + reflexivity.
      + rewrite Pos.iter_succ, Pos2Nat.inj_succ. simpl. f_equal. apply IH. }
  rewrite Hal.
  replace (Pos.shiftl_nat a k) with (Pos.shiftl_nat (Pos.shiftl_nat a k) 0)
    by reflexivity.
  rewrite (binary_round_aux_exact false _ 0 _ Hm)
    by (change (Z.of_nat 0) with 0; lia).
  simpl. f_equal. lia.
Qed.

(** The product of two integers held exactly is held exactly, as long as
    it is below 2^53. *)
Lemma mul_holds (x y : double) (a c : Z) :
  holds_integer x a -> holds_integer y c -> a * c < 2 ^ 53 ->
  holds_integer (B64.mul x y) (a * c).
Proof.
  intros Hx Hy Hac.
  pose proof (holds_integer_pos x a Hx) as Pa.
  pose proof (holds_integer_pos y c Hy) as Pc.
  pose proof (of_Z_holds (a * c) ltac:(nia)) as (mz & t & _ & Ht & Hz & Hmz).
  destruct Hx as (m & s & -> & Hs & Hv & Hm).
  destruct Hy as (n & u & -> & Hu & Hw & Hn).
  exists mz, t. split; [| split; [exact Ht | split; [exact Hz | exact Hmz]]].
  unfold B64.mul, SFmul. simpl xorb.
  (* the product of the mantissas is [mz] followed by zero bits *)
  assert (Hst : t <= s + u).
  { destruct (Z_le_gt_dec t (s + u)) as [L | G]; [exact L |].
    assert (E : 2 ^ t = 2 ^ (s + u) * 2 ^ (t - (s + u)))
      by (rewrite <- Z.pow_add_r by lia; f_equal; lia).
    assert (2 <= 2 ^ (t - (s + u)))
      by (change 2 with (2 ^ 1) at 1; apply Z.pow_le_mono_r; lia).
    assert (Zpos m * Zpos n = a * c * 2 ^ (s + u))
      by (rewrite Z.pow_add_r by lia; nia).
    assert (2 ^ 104 <= Zpos m * Zpos n) by nia.
    nia. }
  set (k := Z.to_nat (s + u - t)).
  assert (Hk : Z.of_nat k = s + u - t) by (subst k; lia).
  assert (Hp : (m * n)%positive = Pos.shiftl_nat mz k).
  { apply Pos2Z.inj. rewrite shiftl_nat_value, Hk, Pos2Z.inj_mul, Hv, Hw, Hz.
    replace (2 ^ (s + u - t)) with (2 ^ (s + u - t)) by reflexivity.
    assert (E : 2 ^ s * 2 ^ u = 2 ^ t * 2 ^ (s + u - t)).
    { rewrite <- !Z.pow_add_r by lia. f_equal. lia. }
    nia. }
  rewrite Hp, binary_round_aux_exact by (exact Hmz || lia).
  f_equal. lia.
Qed.

(** The loop of [number_parser_end] computes a power exactly as long as
    the power is below 2^53. *)
Lemma pow_loop_holds (q : positive) (e d : double) (a c : Z) :
  holds_integer e a -> holds_integer d c -> a * c ^ Zpos q < 2 ^ 53 ->
  holds_integer (pow_loop q e d) (a * c ^ Zpos q).
Proof.
  revert e d a c. induction q as [q IH | q IH |]; intros e d a c He Hd H.
  - pose proof (holds_integer_pos e a He) as Pa.
    pose proof (holds_integer_pos d c Hd) as Pc.
    assert (E : a * c ^ Zpos q~1 = (a * c) * (c * c) ^ Zpos q).
    { rewrite Pos2Z.inj_xI, Z.pow_add_r, Z.pow_mul_r, Z.pow_2_r by lia. lia. }
    assert (P : 0 < (c * c) ^ Zpos q) by (apply Z.pow_pos_nonneg; nia).
    assert (Q : c * c <= (c * c) ^ Zpos q).
    { rewrite <- (Z.pow_1_r (c * c)) at 1. apply Z.pow_le_mono_r; nia. }
    rewrite E in *. simpl pow_loop.
    assert (B1 : a * c <= a * c * (c * c) ^ Zpos q) by nia.
    assert (B2 : (c * c) ^ Zpos q <= a * c * (c * c) ^ Zpos q) by nia.
    apply IH; [apply mul_holds | apply mul_holds | ]; try assumption; lia.
  - pose proof (holds_integer_pos e a He) as Pa.
    pose proof (holds_integer_pos d c Hd) as Pc.
    assert (E : a * c ^ Zpos q~0 = a * (c * c) ^ Zpos q).
    { rewrite Pos2Z.inj_xO, Z.pow_mul_r, Z.pow_2_r by lia. reflexivity. }
    assert (Q : c * c <= (c * c) ^ Zpos q).
    { rewrite <- (Z.pow_1_r (c * c)) at 1. apply Z.pow_le_mono_r; nia. }
    rewrite E in *. simpl pow_loop.
    assert (B2 : (c * c) ^ Zpos q <= a * (c * c) ^ Zpos q) by nia.
    apply IH; [assumption | apply mul_holds | ]; try assumption; lia.
  - rewrite Z.pow_1_r in *. simpl pow_loop. apply mul_holds; assumption.
Qed.

Lemma pow_loop_exact (q : positive) (b : Z) :
  1 <= b -> b ^ Zpos q < 2 ^ 53 ->
  pow_loop q B64.one (B64.of_Z b) = B64.of_Z (b ^ Zpos q).
Proof.
  intros Hb H.
  assert (P : 0 < b ^ Zpos q) by (apply Z.pow_pos_nonneg; lia).
  assert (Q : b <= b ^ Zpos q).
  { rewrite <- (Z.pow_1_r b) at 1. apply Z.pow_le_mono_r; lia. }
  apply (holds_integer_unique _ _ (b ^ Zpos q)); [| apply of_Z_holds; lia].
  replace (b ^ Zpos q) with (1 * b ^ Zpos q) by lia.
  apply pow_loop_holds; [apply of_Z_holds; lia | apply of_Z_holds; lia | lia].
Qed.


Lemma of_Z_encodable (a : Z) : 0 <= a < 2 ^ 53 -> encodable (B64.of_Z a).
Proof.
  intros Ha. destruct (Z.eq_dec a 0) as [-> | Hz]; [exact I |].
  destruct (of_Z_holds a ltac:(lia)) as (m & s & -> & Hs & _ & Hm).
  simpl. right. lia.
Qed.

(** ** Small mantissas: one rounding *)

(** A parser that is still an integer below 2^53 and is converted by
    [number_parser_end], with a power of the base below 2^53: the result
    is one division or one multiplication of two doubles that hold the
    mantissa and the power exactly. *)
Lemma end_small_mantissa (p : number_parser) :
  is_float p = false ->
  has_exp p = true \/ 0 <= rad_off p ->
  0 <= uval p < 2 ^ 53 ->
  1 <= base p ->
  base p ^ Z.abs (effective_exponent p) < 2 ^ 53 ->
  fst (number_parser_end p) = 1 /\
  word (snd (number_parser_end p))
  = B64.to_bits
      ((if end_divides p then B64.div else B64.mul)
         (with_sign (sign p) (B64.of_Z (uval p)))
         (B64.of_Z (base p ^ Z.abs (effective_exponent p)))).
Proof.
  intros Hf Hforced Hu Hb Hpow.
  assert (P : is_float p || end_promotes p = true).
  { unfold end_promotes. rewrite Hf. simpl.
    destruct Hforced as [-> | H].
    - rewrite orb_true_r. reflexivity.
    - destruct (Z.geb_spec (rad_off p) 0); [| lia].
      rewrite orb_true_r. reflexivity. }
  destruct (end_float_word p P) as [K W].
  split; [exact K |]. rewrite W. unfold float_result. cbv zeta.
  assert (Ew : word (convert_to_float p) = B64.to_bits (B64.of_Z (uval p))).
  { unfold convert_to_float. rewrite Hf. reflexivity. }
  rewrite Ew.
  assert (Ee : match Z.abs (effective_exponent p) with
               | Z.pos q => pow_loop q B64.one (B64.of_Z (base p))
               | _ => B64.one
               end
               = B64.of_Z (base p ^ Z.abs (effective_exponent p))).
  { pose proof (Z.abs_nonneg (effective_exponent p)) as Hn.
    destruct (Z.abs (effective_exponent p)) as [| q | q]; [reflexivity | | lia].
    apply pow_loop_exact; assumption. }
  rewrite Ee.
  assert (Es : B64.of_bits
                 (if sign p
                  then B64.to_bits
                         (B64.neg (B64.of_bits (B64.to_bits
                                                  (B64.of_Z (uval p)))))
                  else B64.to_bits (B64.of_Z (uval p)))
               = with_sign (sign p) (B64.of_Z (uval p))).
  { pose proof (of_Z_encodable (uval p) Hu) as He.
    unfold with_sign. destruct (sign p).
    - rewrite (of_bits_to_bits _ He).
      apply of_bits_to_bits, encodable_neg, He.
    - apply of_bits_to_bits, He. }
  rewrite Es. reflexivity.
Qed.

(** X13.  Digits with a radix point in front of the last [k] of them, when the
    digits as an integer [m] and the power [base^k] are both below 2^53:
    [number_parser_end] returns 1 and leaves in the union the double
    quotient of [m] (with the sign) by [base^k], two doubles that hold
    these integers exactly; so the result is rounded once. *)
Theorem fraction_is_one_division
  (b : Z) (ds1 ds2 : list Z) (negative : Z) :
  valid_base b ->
  Forall (valid_digit b) (ds1 ++ ds2) ->
  Z.of_nat (length (ds1 ++ ds2)) <= MAX_LEN ->
  (0 < length ds2)%nat ->
  digits_value b (ds1 ++ ds2) < 2 ^ 53 ->
  b ^ Z.of_nat (length ds2) < 2 ^ 53 ->
  let p := number_parser_set_neg
             (add_digits ds2
                (number_parser_set_rad_point
                   (add_digits ds1 (number_parser_init b)))) negative in
  fst (number_parser_end p) = 1 /\
  word (snd (number_parser_end p))
  = B64.to_bits
      (B64.div
         (with_sign (negb (negative =? 0))
            (B64.of_Z (digits_value b (ds1 ++ ds2))))
         (B64.of_Z (b ^ Z.of_nat (length ds2)))) /\
  (digits_value b (ds1 ++ ds2) <> 0 ->
   holds_integer (B64.of_Z (digits_value b (ds1 ++ ds2)))
     (digits_value b (ds1 ++ ds2))) /\
  holds_integer (B64.of_Z (b ^ Z.of_nat (length ds2)))
    (b ^ Z.of_nat (length ds2)).
Proof.
  intros Hb Hds Hl Hk Hm Hp p.
  assert (Hb1 : 1 <= b) by (unfold valid_base in Hb; lia).
  pose proof (digits_value_nonneg b Hb1 _ Hds) as Hn.
  assert (Hpk : 0 < b ^ Z.of_nat (length ds2))
    by (apply Z.pow_pos_nonneg; lia).
  set (m := add_digits (ds1 ++ ds2) (number_parser_init b)).
  assert (Em : m = set_int_len (Z.of_nat (length (ds1 ++ ds2)))
                     (set_word (digits_value b (ds1 ++ ds2))
                        (number_parser_init b))).
  { subst m. apply add_digits_exact; try assumption. unfold MAX_INT. lia. }
  assert (H0 : 0 <= int_len (number_parser_init b) <= MAX_LEN)
    by (simpl; unfold MAX_LEN; lia).
  assert (Ep : p = number_parser_set_neg
                     (set_rad_off (Z.of_nat (length ds1)) m) negative).
  { subst p m. unfold number_parser_set_rad_point.
    rewrite add_digits_set_rad_off, add_digits_app.
    rewrite add_digits_int_len by exact H0. simpl int_len.
    rewrite length_app in Hl.
    do 2 f_equal. unfold MAX_LEN in *. lia. }
  rewrite length_app in Em.
  assert (En : effective_exponent p = - Z.of_nat (length ds2)).
  { rewrite Ep, Em. unfold effective_exponent. simpl.
    destruct (Z.geb_spec (Z.of_nat (length ds1)) 0); [| lia]. lia. }
  assert (Ed : end_divides p = true).
  { unfold end_divides. rewrite En.
    destruct (Z.ltb_spec (- Z.of_nat (length ds2)) 0); [| lia].
    apply orb_true_r. }
  destruct (end_small_mantissa p) as [K W].
  - rewrite Ep, Em. reflexivity.
  - right. rewrite Ep, Em. simpl. lia.
  - rewrite Ep, Em. unfold uval. simpl. lia.
  - rewrite Ep, Em. simpl. exact Hb1.
  - rewrite En, Z.abs_opp, Z.abs_eq by lia.
    rewrite Ep, Em. simpl. exact Hp.
  - split; [exact K |]. split.
    + rewrite W, Ed, En, Z.abs_opp, Z.abs_eq by lia.
      rewrite Ep, Em. reflexivity.
    + split; [intros Hz |]; apply of_Z_holds; lia.
Qed.

Lemma fraction_is_one_division_12_3 :
  valid_base 10 /\
  Forall (valid_digit 10) ([1; 2] ++ [3]) /\
  Z.of_nat (length ([1; 2] ++ [3])) <= MAX_LEN /\
  (0 < length [3])%nat /\
  digits_value 10 ([1; 2] ++ [3]) < 2 ^ 53 /\
  10 ^ Z.of_nat (length [3]) < 2 ^ 53 /\
  let p := number_parser_set_neg
             (add_digits [3]
                (number_parser_set_rad_point
                   (add_digits [1; 2] (number_parser_init 10)))) 1 in
  fst (number_parser_end p) = 1 /\
  word (snd (number_parser_end p))
  = B64.to_bits (B64.div (B64.neg (B64.of_Z 123)) (B64.of_Z 10)) /\
  (digits_value 10 ([1; 2] ++ [3]) <> 0 -> holds_integer (B64.of_Z 123) 123) /\
  holds_integer (B64.of_Z 10) 10.
Proof.
  assert (Hb : valid_base 10) by (unfold valid_base; lia).
  assert (Hds : Forall (valid_digit 10) ([1; 2] ++ [3]))
    by (repeat constructor; unfold valid_digit; lia).
  assert (Hl : Z.of_nat (length ([1; 2] ++ [3])) <= MAX_LEN)
    by (vm_compute; intros E; discriminate E).
  assert (Hk : (0 < length [3])%nat) by (simpl; lia).
  assert (Hm : digits_value 10 ([1; 2] ++ [3]) < 2 ^ 53)
    by (vm_compute; reflexivity).
  assert (Hp : 10 ^ Z.of_nat (length [3]) < 2 ^ 53)
    by (vm_compute; reflexivity).
  split; [exact Hb |]. split; [exact Hds |]. split; [exact Hl |].
  split; [exact Hk |]. split; [exact Hm |]. split; [exact Hp |].
  exact (fraction_is_one_division 10 [1; 2] [3] 1 Hb Hds Hl Hk Hm Hp).
Defined.

Lemma add_exp_digits_sets_has_exp (es : list Z) (p : number_parser) :
  es <> [] -> exp_val p < MAX_EXP -> has_exp (add_exp_digits es p) = true.
Proof.
  intros He Hp. destruct es as [| d es]; [contradiction He; reflexivity |].
  unfold add_exp_digits. simpl.
  assert (H : has_exp (number_parser_add_exp_digit p d) = true).
  { unfold number_parser_add_exp_digit.
    destruct (Z.ltb_spec (exp_val p) MAX_EXP); [reflexivity | lia]. }
  clear He Hp. revert H. generalize (number_parser_add_exp_digit p d).
  induction es as [| e es IH]; intros q H; [exact H |].
  simpl. apply IH. unfold number_parser_add_exp_digit.
  destruct (exp_val q <? MAX_EXP); [reflexivity | exact H].
Qed.

(** X14.  Digits followed by an exponent, when the digits as an integer [m]
    and the power [base^n] for the exponent value [n] are both below
    2^53: [number_parser_end] returns 1 and leaves in the union the
    double product of [m] (with the sign) and [base^n], or their double
    quotient when the exponent is negative; both operands hold their
    integers exactly, so the result is rounded once. *)
Theorem exponent_is_one_operation
  (b : Z) (ds es : list Z) (negative exp_negative : Z) :
  valid_base b ->
  Forall (valid_digit b) ds ->
  Z.of_nat (length ds) <= MAX_LEN ->
  digits_value b ds < 2 ^ 53 ->
  es <> [] ->
  let n := exp_val (add_exp_digits es (number_parser_init b)) in
  0 <= n ->
  b ^ n < 2 ^ 53 ->
  let p := number_parser_set_neg
             (number_parser_set_exp_neg
                (add_exp_digits es (add_digits ds (number_parser_init b)))
                exp_negative) negative in
  fst (number_parser_end p) = 1 /\
  word (snd (number_parser_end p))
  = B64.to_bits
      ((if negb (exp_negative =? 0) then B64.div else B64.mul)
         (with_sign (negb (negative =? 0)) (B64.of_Z (digits_value b ds)))
         (B64.of_Z (b ^ n))) /\
  holds_integer (B64.of_Z (b ^ n)) (b ^ n).
Proof.
  intros Hb Hds Hl Hm Hes n Hn Hp p. subst p.
  assert (Hb1 : 1 <= b) by (unfold valid_base in Hb; lia).
  pose proof (digits_value_nonneg b Hb1 _ Hds) as Hv.
  assert (Hpn : 0 < b ^ n) by (apply Z.pow_pos_nonneg; lia).
  set (p0 := number_parser_init b) in *.
  set (m := add_digits ds p0).
  assert (Em : m = set_int_len (Z.of_nat (length ds))
                     (set_word (digits_value b ds) p0)).
  { subst m. apply add_digits_exact; try assumption. unfold MAX_INT. lia. }
  destruct (add_exp_digits_frame es m) as (Lq & Rq & Bq & Sq & Xq & Fq & Wq).
  destruct (add_exp_digits_ext es m p0) as [Vq Hq];
    [rewrite Em; reflexivity | rewrite Em; reflexivity
    | rewrite Em; reflexivity |].
  fold n in Vq.
  assert (Hx : has_exp (add_exp_digits es m) = true).
  { rewrite Hq. apply add_exp_digits_sets_has_exp; [exact Hes |].
    reflexivity. }
  remember (add_exp_digits es m) as q eqn:Eq.
  set (p := number_parser_set_neg
              (number_parser_set_exp_neg q exp_negative) negative).
  assert (Fields : is_float p = false /\ has_exp p = true /\
                   uval p = digits_value b ds /\ base p = b /\
                   rad_off p = -1 /\ exp_val p = n /\
                   exp_sign p = negb (exp_negative =? 0) /\
                   sign p = negb (negative =? 0)).
  { subst p. unfold uval. simpl.
    rewrite Fq, Hx, Wq, Bq, Rq, Vq, Em. repeat split. }
  destruct Fields as (Ff & Fh & Fu & Fb & Fr & Fv & Fx & Fs).
  assert (En : Z.abs (effective_exponent p) = n /\
               end_divides p = negb (exp_negative =? 0)).
  { unfold end_divides, effective_exponent. rewrite Fr, Fv, Fx.
    change (-1 >=? 0) with false. cbv iota.
    destruct (negb (exp_negative =? 0)).
    - split; [lia | reflexivity].
    - split; [lia |]. destruct (Z.ltb_spec (n - 0) 0); [lia | reflexivity]. }
  destruct En as [En Ed].
  destruct (end_small_mantissa p) as [K W].
  - exact Ff.
  - left. exact Fh.
  - rewrite Fu. lia.
  - rewrite Fb. exact Hb1.
  - rewrite En, Fb. exact Hp.
  - split; [exact K |]. split.
    + rewrite W, Ed, En, Fu, Fb, Fs. reflexivity.
    + apply of_Z_holds. lia.
Qed.

Lemma exponent_is_one_operation_123e4 :
  valid_base 10 /\
  Forall (valid_digit 10) [1; 2; 3] /\
  Z.of_nat (length [1; 2; 3]) <= MAX_LEN /\
  digits_value 10 [1; 2; 3] < 2 ^ 53 /\
  [4] <> [] /\
  0 <= 4 /\
  10 ^ 4 < 2 ^ 53 /\
  let p := number_parser_set_neg
             (number_parser_set_exp_neg
                (add_exp_digits [4]
                   (add_digits [1; 2; 3] (number_parser_init 10))) 0) 1 in
  fst (number_parser_end p) = 1 /\
  word (snd (number_parser_end p))
  = B64.to_bits (B64.mul (B64.neg (B64.of_Z 123)) (B64.of_Z 10000)) /\
  holds_integer (B64.of_Z 10000) 10000.
Proof.
  assert (Hb : valid_base 10) by (unfold valid_base; lia).
  assert (Hds : Forall (valid_digit 10) [1; 2; 3])
    by (repeat constructor; unfold valid_digit; lia).
  assert (Hl : Z.of_nat (length [1; 2; 3]) <= MAX_LEN)
    by (vm_compute; intros E; discriminate E).
  assert (Hm : digits_value 10 [1; 2; 3] < 2 ^ 53) by (vm_compute; reflexivity).
  assert (Hes : [4] <> @nil Z) by discriminate.
  assert (Hn : 0 <= 4) by lia.
  assert (Hp : 10 ^ 4 < 2 ^ 53) by (vm_compute; reflexivity).
  split; [exact Hb |]. split; [exact Hds |]. split; [exact Hl |].
  split; [exact Hm |]. split; [exact Hes |]. split; [exact Hn |].
  split; [exact Hp |].
  exact (exponent_is_one_operation 10 [1; 2; 3] [4] 1 0 Hb Hds Hl Hm Hes Hn Hp).
Defined.

(** X15.  The square-and-multiply loop of [number_parser_end], started as the
    function starts it ([e = 1.0], [d = base]), ends on the double that
    holds [base^n] exactly whenever [base^n] is below 2^53: no product
    in the loop is rounded. *)
Theorem power_loop_is_exact (b : Z) (q : positive) :
  1 <= b ->
  b ^ Zpos q < 2 ^ 53 ->
  pow_loop q B64.one (B64.of_Z b) = B64.of_Z (b ^ Zpos q) /\
  holds_integer (pow_loop q B64.one (B64.of_Z b)) (b ^ Zpos q).
Proof.
  intros Hb H.
  assert (P : 0 < b ^ Zpos q) by (apply Z.pow_pos_nonneg; lia).
  rewrite pow_loop_exact by assumption.
  split; [reflexivity | apply of_Z_holds; lia].
Qed.

Lemma power_loop_is_exact_ten_15 :
  1 <= 10 /\
  10 ^ 15 < 2 ^ 53 /\
  pow_loop 15 B64.one (B64.of_Z 10) = B64.of_Z (10 ^ 15) /\
  holds_integer (pow_loop 15 B64.one (B64.of_Z 10)) (10 ^ 15).
Proof.
  assert (Hb : 1 <= 10) by lia.
  assert (H : 10 ^ 15 < 2 ^ 53) by (vm_compute; reflexivity).
  split; [exact Hb |]. split; [exact H |].
  exact (power_loop_is_exact 10 15 Hb H).
Defined.
